(** * chat-app: the hub and the per-connection pumps of [backend/main.go]

    A shallow embedding of the Go chat server: the [Message] and [Client]
    structs, buffered channels with Go's panic rules, the three cases of
    [Hub.Run], the read pump's decode-and-stamp loop and the connection
    handler [handleWebSocket].

    Conventions.
    - A [*Client] is an address ([ptr]); the structs live in a [heap].
    - [h.clients] is the Go map [map[*Client]bool], here a [gmap ptr bool].
    - A panic of the Go runtime (close of a closed channel, send on a
      closed channel) is the result [None].
    - [time.Now()] is an input of the function that reads the clock.
    - [log.Printf] calls have no effect on the state and are left out. *)

From stdpp Require Import gmap strings list fin_maps.

Local Open Scope string_scope.

(** ** Data model *)

(** [time.Time], as an instant on the server clock. *)
Definition Time := Z.

(** [type Message struct]; [Type] is a reserved word, hence [Type_]. *)
Record Message := mkMessage {
  Type_ : string;
  Username : string;
  Content : string;
  Room : string;
  Timestamp : Time
}.

(** The zero value of [var msg Message]. *)
Definition zeroMessage : Message := mkMessage "" "" "" "" 0%Z.

(** ** Buffered channels [chan Message] *)

Module Chan.

Record t := mk {
  buf : list Message;   (* queued elements, oldest first *)
  cap : nat;            (* capacity given to [make] *)
  closed : bool
}.

(** [make(chan Message, n)] *)
Definition make (n : nat) : t := mk [] n false.

(** [close(ch)]: closing a closed channel panics. *)
Definition close (ch : t) : option t :=
  if closed ch then None else Some (mk (buf ch) (cap ch) true).

(** The outcome of [select { case ch <- m: ... default: ... }]. *)
Inductive try_result :=
| Sent (ch' : t)      (* the send case ran *)
| Full.               (* the default case ran *)

(** A send on a closed channel panics, also inside a [select]; otherwise
    the send case is ready exactly when the buffer has room. *)
Definition try_send (m : Message) (ch : t) : option try_result :=
  if closed ch then None
  else if decide (length (buf ch) < cap ch)
       then Some (Sent (mk (buf ch ++ [m]) (cap ch) false))
       else Some Full.

(** [m, ok := <-ch] when it does not block: the oldest element, or
    [ok = false] on a closed and drained channel. *)
Inductive recv_result :=
| Got (m : Message) (ch' : t)
| Closed
| Empty.              (* nothing to receive yet: the receiver waits *)

Definition recv (ch : t) : recv_result :=
  match buf ch with
  | m :: rest => Got m (mk rest (cap ch) (closed ch))
  | [] => if closed ch then Closed else Empty
  end.

End Chan.

(** ** Clients and the hub *)

Abbreviation ptr := positive (only parsing).

(** [type Client struct]; the transport [conn] is outside the model. *)
Record Client := mkClient {
  username : string;
  room : string;
  send : Chan.t
}.

Definition with_send (cl : Client) (ch : Chan.t) : Client :=
  mkClient (username cl) (room cl) ch.

(** The memory the hub goroutine works on: the [Client] structs it holds
    pointers to, and its own [clients] map. *)
Record State := mkState {
  heap : gmap ptr Client;
  clients : gmap ptr bool
}.

(** [NewHub()] with no client allocated yet. *)
Definition NewHub : State := mkState ∅ ∅.

(** What the hub receives on its three channels. *)
Inductive request :=
| Register (client : ptr)
| Unregister (client : ptr)
| Broadcast (message : Message).

(** [case client := <-h.register] *)
Definition Hub_register (client : ptr) (s : State) : option State :=
  Some (mkState (heap s) (<[client := true]> (clients s))).

(** [case client := <-h.unregister] *)
Definition Hub_unregister (client : ptr) (s : State) : option State :=
  match clients s !! client with
  | Some _ =>
      cl ← heap s !! client;
      ch ← Chan.close (send cl);
      Some (mkState (<[client := with_send cl ch]> (heap s))
                    (delete client (clients s)))
  | None => Some s
  end.

(** The body of [for client := range h.clients] in the broadcast case.  An
    entry deleted before the iteration reaches it is not produced by
    [range]; the first match makes that explicit. *)
Definition broadcast_visit (message : Message) (client : ptr) (s : State)
  : option State :=
  match clients s !! client with
  | None => Some s
  | Some _ =>
      cl ← heap s !! client;
      if decide (room cl = Room message) then
        r ← Chan.try_send message (send cl);
        match r with
        | Chan.Sent ch' =>
            Some (mkState (<[client := with_send cl ch']> (heap s)) (clients s))
        | Chan.Full =>
            ch ← Chan.close (send cl);
            Some (mkState (<[client := with_send cl ch]> (heap s))
                          (delete client (clients s)))
        end
      else Some s
  end.

(** The [range] loop over a given iteration order.  Go leaves the order of
    a map iteration unspecified. *)
Fixpoint broadcast_range (message : Message) (order : list ptr) (s : State)
  : option State :=
  match order with
  | [] => Some s
  | client :: rest =>
      s' ← broadcast_visit message client s;
      broadcast_range message rest s'
  end.

(** An iteration order the Go runtime may choose: every key once. *)
Definition range_order (s : State) (order : list ptr) : Prop :=
  NoDup order ∧ ∀ c, c ∈ order ↔ is_Some (clients s !! c).

(** One such order, for running the model. *)
Definition keys (s : State) : list ptr := (map_to_list (clients s)).*1.

(** [case message := <-h.broadcast] *)
Definition Hub_broadcast (message : Message) (s : State) : option State :=
  broadcast_range message (keys s) s.

(** One turn of the [for { select { ... } }] loop of [Hub.Run]. *)
Definition Hub_Run_step (rq : request) (s : State) : option State :=
  match rq with
  | Register c => Hub_register c s
  | Unregister c => Hub_unregister c s
  | Broadcast m => Hub_broadcast m s
  end.

(** [Hub.Run] over the requests received so far. *)
Fixpoint Hub_Run (rqs : list request) (s : State) : option State :=
  match rqs with
  | [] => Some s
  | rq :: rest => s' ← Hub_Run_step rq s; Hub_Run rest s'
  end.

(** ** The write pump's side of a client's queue *)

(** [case message, ok := <-c.send] of [writePump]: takes the oldest queued
    message.  On an empty queue the state is unchanged (the pump waits, or
    sees [ok = false] on a closed channel and returns). *)
Definition writePump_recv (client : ptr) (s : State) : State :=
  match heap s !! client with
  | Some cl =>
      match Chan.recv (send cl) with
      | Chan.Got _ ch' =>
          mkState (<[client := with_send cl ch']> (heap s)) (clients s)
      | _ => s
      end
  | None => s
  end.

(** ** The read pump *)

(** What [c.conn.ReadMessage()] returns, with the clock value read by
    [time.Now()] in case the frame is forwarded. *)
Inductive read_event :=
| Frame (messageData : list Byte.byte) (now : Time)
| ReadErr.

Inductive pump_status :=
| Reading       (* blocked in [ReadMessage], the connection is alive *)
| Exited.       (* left the loop: the deferred teardown ran *)

(** Lines 128-130: the three assignments after a successful decode. *)
Definition stamp (cl : Client) (now : Time) (msg : Message) : Message :=
  mkMessage (Type_ msg) (username cl) (Content msg) (room cl) now.

Section ReadPump.

(** [json.Unmarshal(messageData, &msg)] of encoding/json: the decoded
    value of the target, or [None] for a non-nil error. *)
Variable json_Unmarshal : list Byte.byte → Message → option Message.

(** [readPump]: the requests the pump hands to the hub while it
    consumes the given reads, and whether it is still in its loop. *)
Fixpoint readPump (c : ptr) (cl : Client) (reads : list read_event)
  : list request * pump_status :=
  match reads with
  | [] => ([], Reading)
  | ReadErr :: _ => ([Unregister c], Exited)
  | Frame messageData now :: rest =>
      match json_Unmarshal messageData zeroMessage with
      | None => readPump c cl rest
      | Some msg =>
          let '(out, st) := readPump c cl rest in
          (Broadcast (stamp cl now msg) :: out, st)
      end
  end.

End ReadPump.

(** ** The connection handler *)

(** [url.Values] and its [Get]: the first value of the key, or the empty
    string when there is none. *)
Definition Values_Get (v : gmap string (list string)) (key : string) : string :=
  match v !! key with
  | Some (x :: _) => x
  | _ => ""
  end.

(** Lines 174-182. *)
Definition resolve_identity (query : gmap string (list string))
  : string * string :=
  let username := Values_Get query "username" in
  let room := Values_Get query "room" in
  let username := if decide (username = "") then "Anonymous" else username in
  let room := if decide (room = "") then "general" else room in
  (username, room).

(** Lines 203-209. *)
Definition joinMsg (username room : string) (now : Time) : Message :=
  mkMessage "join" username (username +:+ " joined the room") room now.

(** [handleWebSocket]: [upgraded] tells whether [upgrader.Upgrade]
    returned no error, [client] is the address of the new [Client]
    struct.  The result is the memory after the allocation and the
    requests handed to the hub, in order. *)
Definition handleWebSocket (query : gmap string (list string))
    (upgraded : bool) (client : ptr) (now : Time) (s : State)
  : State * list request :=
  let '(username, room) := resolve_identity query in
  if upgraded then
    let cl := mkClient username room (Chan.make 256) in
    (mkState (<[client := cl]> (heap s)) (clients s),
     [Register client; Broadcast (joinMsg username room now)])
  else (s, []).

(** The handler followed by the hub's handling of its two requests. *)
Definition connect (query : gmap string (list string)) (upgraded : bool)
    (client : ptr) (now : Time) (s : State) : option State :=
  let '(s1, rqs) := handleWebSocket query upgraded client now s in
  Hub_Run rqs s1.

(** ** The system around the hub *)

(** The moves that change the hub's memory. *)
Inductive action :=
| NewClient (client : ptr) (username room : string)
| HubStep (rq : request)
| Recv (client : ptr).

Definition perform (a : action) (s : State) : option State :=
  match a with
  | NewClient c u r =>
      Some (mkState (<[c := mkClient u r (Chan.make 256)]> (heap s)) (clients s))
  | HubStep rq => Hub_Run_step rq s
  | Recv c => Some (writePump_recv c s)
  end.

(** Whether the queue of the client at [c] is open, resp. closed; both
    are false at an address that holds no client. *)
Definition is_open (s : State) (c : ptr) : bool :=
  match heap s !! c with
  | Some cl => negb (Chan.closed (send cl))
  | None => false
  end.

Definition is_closed (s : State) (c : ptr) : bool :=
  match heap s !! c with
  | Some cl => Chan.closed (send cl)
  | None => false
  end.

(** What the program can do: an allocation returns an unused address, and
    [handleWebSocket], the only sender on [h.register], registers a client
    whose queue has not been closed.  Unregister and broadcast requests
    are unconstrained. *)
Definition admissible (s : State) (a : action) : Prop :=
  match a with
  | NewClient c _ _ => heap s !! c = None
  | HubStep (Register c) => is_open s c = true
  | _ => True
  end.

(** A run of the system: every move admissible, none panics. *)
Inductive run : State → list action → State → Prop :=
| run_nil s : run s [] s
| run_cons s a s1 acts s2 :
    admissible s a → perform a s = Some s1 → run s1 acts s2 →
    run s (a :: acts) s2.

Definition reachable (s : State) : Prop := ∃ acts, run NewHub acts s.

(** The number of moves of a run that close the queue of [c]. *)
Fixpoint closings (c : ptr) (acts : list action) (s : State) : nat :=
  match acts with
  | [] => 0
  | a :: rest =>
      match perform a s with
      | Some s' =>
          (if is_open s c && is_closed s' c then 1 else 0) + closings c rest s'
      | None => 0
      end
  end.

(** Every registered client is allocated and its queue is open. *)
Definition wf (s : State) : Prop :=
  ∀ c, is_Some (clients s !! c) → is_open s c = true.

(** The message was appended to the queue of [c] between [s] and [s']. *)
Definition enqueued (message : Message) (s s' : State) (c : ptr) : Prop :=
  ∃ cl, heap s !! c = Some cl ∧
        heap s' !! c =
          Some (mkClient (username cl) (room cl) (Chan.mk (Chan.buf (send cl) ++ [message])
                                      (Chan.cap (send cl)) false)).

(** The queue of [c] is full: a send would not complete. *)
Definition queue_full (s : State) (c : ptr) : Prop :=
  ∃ cl, heap s !! c = Some cl ∧ ¬ length (Chan.buf (send cl)) < Chan.cap (send cl).

Definition in_room (s : State) (c : ptr) (r : string) : Prop :=
  ∃ cl, heap s !! c = Some cl ∧ room cl = r.

(** The state after a visit that enqueued, resp. evicted. *)
Definition sent_state (message : Message) (c : ptr) (cl : Client) (s : State) : State :=
  mkState (<[c := with_send cl (Chan.mk (Chan.buf (send cl) ++ [message])
                                       (Chan.cap (send cl)) false)]> (heap s))
          (clients s).

Definition evicted_state (c : ptr) (cl : Client) (s : State) : State :=
  mkState (<[c := with_send cl (Chan.mk (Chan.buf (send cl))
                                       (Chan.cap (send cl)) true)]> (heap s))
          (delete c (clients s)).

(** A boolean form of [wf], for concrete states. *)
Definition wfb (s : State) : bool :=
  bool_decide (map_Forall (λ c _, is_open s c = true) (clients s)).

(** The client at [c] has left the hub: unregistered, queue closed. *)
Definition gone (s : State) (c : ptr) : Prop :=
  clients s !! c = None ∧ is_closed s c = true.

(** The query has no value for the key, or an empty first value. *)
Definition missing_or_empty (query : gmap string (list string)) (key : string)
  : Prop :=
  query !! key = None ∨ query !! key = Some [] ∨
  ∃ rest, query !! key = Some ("" :: rest).

(** ** Concrete states used to exercise the theorems *)

Definition hello : Message := mkMessage "message" "Alice" "hello" "general" 7%Z.

(** Alice and Bob in "general", Dave in "random"; Bob's queue is full. *)
Definition ex_hub : State :=
  mkState
    (<[1%positive := mkClient "Alice" "general" (Chan.make 256)]>
       (<[2%positive := mkClient "Bob" "general"
                          (Chan.mk (replicate 256 hello) 256 false)]>
          (<[3%positive := mkClient "Dave" "random" (Chan.make 256)]> ∅)))
    (<[1%positive := true]> (<[2%positive := true]> (<[3%positive := true]> ∅))).

(** Alice connects, sends nothing, and is unregistered twice. *)
Definition ex_acts : list action :=
  [NewClient 1%positive "Alice" "general";
   HubStep (Register 1%positive);
   HubStep (Broadcast (mkMessage "join" "Alice" "Alice joined the room" "general" 1%Z));
   Recv 1%positive;
   HubStep (Unregister 1%positive);
   HubStep (Unregister 1%positive)].

(** A small decoder standing in for [json.Unmarshal] in the examples: the
    first byte selects the decoded message, anything else is an error. *)
Definition ex_Unmarshal (data : list Byte.byte) (target : Message)
  : option Message :=
  match data with
  | Byte.x01 :: _ => Some (mkMessage "message" (Username target) "hi" (Room target) 0%Z)
  | Byte.x02 :: _ => Some (mkMessage "message" "Mallory" "hi" "secret" 99%Z)
  | Byte.x03 :: _ => Some (mkMessage "join" "Mallory" "Bob joined the room" "secret" 99%Z)
  | _ => None
  end.

Definition alice : Client := mkClient "Alice" "general" (Chan.make 256).


(** ** The write pump, whole *)

(** What [writePump] writes to the connection: [WriteJSON(message)], a
    ping, or the close frame. *)
Inductive wire :=
| WriteJSON (message : Message)
| PingMessage
| CloseMessage.

(** The case the [select] of [writePump] takes in one iteration. *)
Inductive select_case :=
| CaseSend      (* [case message, ok := <-c.send] *)
| CaseTick.     (* [case <-ticker.C] *)

#[global] Instance select_case_eq_dec : EqDecision select_case.
Proof. solve_decision. Defined.

Inductive loop_status :=
| Running
| Returned.     (* the deferred [ticker.Stop(); c.conn.Close()] ran *)

(** One iteration of the loop of [writePump]; [write_ok] tells whether the
    write of this iteration returns a nil error.  The writes are listed as
    attempted.  On an open empty queue the send case is not ready: the
    pump stays where it is.  The error of the close frame's write is
    ignored by the code. *)
Definition writePump_iter (c : ptr) (case : select_case) (write_ok : bool)
    (s : State) : State * list wire * loop_status :=
  match case with
  | CaseSend =>
      match heap s !! c with
      | Some cl =>
          match Chan.recv (send cl) with
          | Chan.Got message _ =>
              (writePump_recv c s, [WriteJSON message],
               if write_ok then Running else Returned)
          | Chan.Closed => (s, [CloseMessage], Returned)
          | Chan.Empty => (s, [], Running)
          end
      | None => (s, [], Running)
      end
  | CaseTick => (s, [PingMessage], if write_ok then Running else Returned)
  end.

(** [writePump] over the cases its [select] takes, in order. *)
Fixpoint writePump (c : ptr) (schedule : list (select_case * bool)) (s : State)
  : State * list wire * loop_status :=
  match schedule with
  | [] => (s, [], Running)
  | (case, write_ok) :: rest =>
      let '(s1, out1, st1) := writePump_iter c case write_ok s in
      match st1 with
      | Returned => (s1, out1, Returned)
      | Running =>
          let '(s2, out2, st2) := writePump c rest s1 in
          (s2, (out1 ++ out2)%list, st2)
      end
  end.

(** The messages among the frames written. *)
Definition json_frames (out : list wire) : list Message :=
  omap (λ w, match w with WriteJSON m => Some m | _ => None end) out.

(** Every queue holds at most its capacity, which is 256. *)
Definition bounded (s : State) : Prop :=
  ∀ c cl, heap s !! c = Some cl →
    (length (Chan.buf (send cl)) ≤ Chan.cap (send cl))%nat ∧
    Chan.cap (send cl) = 256%nat.

(** ** The HTTP side: [corsMiddleware] and [handleHealth] *)

(** The part of [*http.Request] the handlers read. *)
Record Request := mkRequest {
  Method : string
}.

(** [http.ResponseWriter]: the header map, the status and the header map
    as they went out once the header is written, and the JSON objects
    sent in the body (each as its key/value pairs in the order
    encoding/json writes a map: sorted by key). *)
Record ResponseWriter := mkResponseWriter {
  Header : gmap string (list string);
  status : option nat;
  sentHeader : gmap string (list string);
  body : list (list (string * string))
}.

(** [w.Header().Set(key, value)]; the keys used are in canonical form. *)
Definition Header_Set (key value : string) (w : ResponseWriter) : ResponseWriter :=
  mkResponseWriter (<[key := [value]]> (Header w)) (status w) (sentHeader w) (body w).

(** [w.WriteHeader(code)]: only the first call takes effect. *)
Definition WriteHeader (code : nat) (w : ResponseWriter) : ResponseWriter :=
  match status w with
  | Some _ => w
  | None => mkResponseWriter (Header w) (Some code) (Header w) (body w)
  end.

(** [json.NewEncoder(w).Encode(v)]: a write, which sends the header with
    status 200 when none was written before.  The response writer of the
    net/http server knows the request it answers: when that is a HEAD
    request ([head]) the bytes of the write are accepted and discarded, so
    nothing is added to the body. *)
Definition Encode (head : bool) (v : list (string * string)) (w : ResponseWriter)
  : ResponseWriter :=
  let w := WriteHeader 200 w in
  mkResponseWriter (Header w) (status w) (sentHeader w)
    (if head then body w else (body w ++ [v])%list).

(** [http.HandlerFunc], with the memory the handler works on passed
    through. *)
Definition HandlerFunc (Σ : Type) : Type :=
  ResponseWriter → Request → Σ → ResponseWriter * Σ.

(** [corsMiddleware] *)
Definition corsMiddleware {Σ : Type} (next : HandlerFunc Σ) : HandlerFunc Σ :=
  λ w r σ,
    let w := Header_Set "Access-Control-Allow-Origin" "*" w in
    let w := Header_Set "Access-Control-Allow-Methods" "GET, POST, OPTIONS" w in
    let w := Header_Set "Access-Control-Allow-Headers" "Content-Type" w in
    if decide (Method r = "OPTIONS") then (WriteHeader 200 w, σ)
    else next w r σ.

(** [handleHealth]; [now] is [time.Now().Format(time.RFC3339)]. *)
Definition handleHealth {Σ : Type} (now : string) : HandlerFunc Σ :=
  λ w r σ,
    let w := Header_Set "Content-Type" "application/json" w in
    (Encode (bool_decide (Method r = "HEAD"))
       [("status", "healthy"); ("time", now)] w, σ).

(** A response writer nothing was written to yet. *)
Definition fresh_writer : ResponseWriter := mkResponseWriter ∅ None ∅ [].

(** Carol in "general" with three queued messages, already closed. *)
Definition ex_closed : State :=
  mkState
    (<[5%positive := mkClient "Carol" "general"
                       (Chan.mk [hello; hello; hello] 256 true)]> ∅)
    ∅.

(** Alice registered, one message queued. *)
Definition ex_one : State :=
  mkState (<[1%positive := with_send alice (Chan.mk [hello] 256 false)]> ∅)
          (<[1%positive := true]> ∅).

(** A boolean form of [admissible], and a run as a computation. *)
Definition admissibleb (s : State) (a : action) : bool :=
  match a with
  | NewClient c _ _ => match heap s !! c with None => true | Some _ => false end
  | HubStep (Register c) => is_open s c
  | _ => true
  end.

Fixpoint exec (acts : list action) (s : State) : option State :=
  match acts with
  | [] => Some s
  | a :: rest => if admissibleb s a then perform a s ≫= exec rest else None
  end.

(** Carol asks to join, with no room given. *)
Definition ex_query : gmap string (list string) := <["username" := ["Carol"]]> ∅.

Definition ex_join : Message :=
  mkMessage "join" "Carol" "Carol joined the room" "general" 9%Z.

(** Builds a concrete run move by move. *)
Ltac run_by_computation :=
  repeat (eapply run_cons; [vm_compute; reflexivity|vm_compute; reflexivity|]);
  apply run_nil.

(** ** Lemmas on one visit of the broadcast loop *)

Lemma is_open_Some s c :
  is_open s c = true ↔ ∃ cl, heap s !! c = Some cl ∧ Chan.closed (send cl) = false.
Proof.
  unfold is_open. destruct (heap s !! c) as [cl|]; split.
  - intros H. exists cl. split; [done|]. by destruct (Chan.closed (send cl)).
  - intros (cl' & [= <-] & ->). done.
  - done.
  - intros (cl' & [=] & _).
Qed.

Lemma is_closed_Some s c :
  is_closed s c = true ↔ ∃ cl, heap s !! c = Some cl ∧ Chan.closed (send cl) = true.
Proof.
  unfold is_closed. destruct (heap s !! c) as [cl|]; split.
  - intros H. by exists cl.
  - intros (cl' & [= <-] & ->). done.
  - done.
  - intros (cl' & [=] & _).
Qed.

Lemma visit_absent message c s :
  clients s !! c = None → broadcast_visit message c s = Some s.
Proof. unfold broadcast_visit. by intros ->. Qed.

Lemma visit_other_room message c s cl :
  heap s !! c = Some cl → room cl ≠ Room message →
  broadcast_visit message c s = Some s.
Proof.
  intros Hh Hr. unfold broadcast_visit. destruct (clients s !! c); [|done].
  rewrite Hh. simpl. by rewrite decide_False.
Qed.

Lemma visit_sent message c s cl b :
  clients s !! c = Some b → heap s !! c = Some cl →
  room cl = Room message → Chan.closed (send cl) = false →
  length (Chan.buf (send cl)) < Chan.cap (send cl) →
  broadcast_visit message c s =
    Some (mkState (<[c := with_send cl (Chan.mk (Chan.buf (send cl) ++ [message])
                                               (Chan.cap (send cl)) false)]> (heap s))
                  (clients s)).
Proof.
  intros Hc Hh Hr Ho Hl. unfold broadcast_visit, Chan.try_send.
  rewrite Hc, Hh. simpl. rewrite decide_True by done.
  rewrite Ho. by rewrite decide_True.
Qed.

Lemma visit_full message c s cl b :
  clients s !! c = Some b → heap s !! c = Some cl →
  room cl = Room message → Chan.closed (send cl) = false →
  ¬ length (Chan.buf (send cl)) < Chan.cap (send cl) →
  broadcast_visit message c s =
    Some (mkState (<[c := with_send cl (Chan.mk (Chan.buf (send cl))
                                               (Chan.cap (send cl)) true)]> (heap s))
                  (delete c (clients s))).
Proof.
  intros Hc Hh Hr Ho Hl. unfold broadcast_visit, Chan.try_send, Chan.close.
  rewrite Hc, Hh. simpl. rewrite decide_True by done.
  rewrite Ho. by rewrite decide_False.
Qed.

(** The three ways a visit can succeed. *)
Lemma visit_inv message c s s' :
  broadcast_visit message c s = Some s' →
  s' = s ∨
  ∃ cl b, clients s !! c = Some b ∧ heap s !! c = Some cl ∧
          room cl = Room message ∧ Chan.closed (send cl) = false ∧
          ((length (Chan.buf (send cl)) < Chan.cap (send cl) ∧
            s' = sent_state message c cl s) ∨
           (¬ length (Chan.buf (send cl)) < Chan.cap (send cl) ∧
            s' = evicted_state c cl s)).
Proof.
  unfold broadcast_visit.
  destruct (clients s !! c) as [b|] eqn:Hc; [|intros [= <-]; by left].
  destruct (heap s !! c) as [cl|] eqn:Hh; simpl; [|done].
  destruct (decide (room cl = Room message)) as [Hr|Hr]; [|intros [= <-]; by left].
  unfold Chan.try_send, Chan.close.
  destruct (Chan.closed (send cl)) eqn:Ho; simpl; [done|].
  destruct (decide (length (Chan.buf (send cl)) < Chan.cap (send cl))) as [Hl|Hl];
    simpl; rewrite ?Ho; simpl; intros [= <-]; right; exists cl, b;
    repeat split; auto.
Qed.

(** A visit of [c] leaves every other client alone. *)
Lemma visit_frame message c s s' d :
  broadcast_visit message c s = Some s' → d ≠ c →
  heap s' !! d = heap s !! d ∧ clients s' !! d = clients s !! d.
Proof.
  intros H Hd. apply visit_inv in H as [->|(cl & b & _ & _ & _ & _ & [[_ ->]|[_ ->]])];
    simpl; rewrite ?lookup_insert_ne, ?lookup_delete_ne by done; done.
Qed.

(** The outcome of a visit of [c] depends on the entries of [c] only. *)
Lemma visit_local message c s1 s2 s2' :
  heap s1 !! c = heap s2 !! c → clients s1 !! c = clients s2 !! c →
  broadcast_visit message c s2 = Some s2' →
  ∃ s1', broadcast_visit message c s1 = Some s1' ∧
         heap s1' !! c = heap s2' !! c ∧ clients s1' !! c = clients s2' !! c.
Proof.
  intros Hh Hc H. unfold broadcast_visit in *. rewrite Hc.
  destruct (clients s2 !! c) as [b|] eqn:Hc2;
    [|injection H as <-; exists s1; by rewrite Hh, Hc, Hc2].
  rewrite Hh. destruct (heap s2 !! c) as [cl|] eqn:Hh2; simpl in *; [|done].
  destruct (decide (room cl = Room message));
    [|injection H as <-; exists s1; by rewrite Hh, Hc, Hc2, Hh2].
  destruct (Chan.try_send message (send cl)) as [[ch'|]|]; simpl in *; [| |done].
  - injection H as <-. eexists. split; [done|]. simpl.
    by rewrite !lookup_insert_eq, Hc, Hc2.
  - destruct (Chan.close (send cl)) as [ch|]; simpl in *; [|done].
    injection H as <-. eexists. split; [done|]. simpl.
    by rewrite !lookup_insert_eq, !lookup_delete_eq.
Qed.

(** On a well-formed state a visit does not panic and keeps the state
    well-formed. *)
Lemma visit_wf message c s :
  wf s → ∃ s', broadcast_visit message c s = Some s' ∧ wf s'.
Proof.
  intros Hwf.
  destruct (clients s !! c) as [b|] eqn:Hc;
    [|exists s; split; [by apply visit_absent|done]].
  destruct (proj1 (is_open_Some s c) (Hwf c (ex_intro _ b Hc))) as (cl & Hh & Ho).
  destruct (decide (room cl = Room message)) as [Hr|Hr];
    [|exists s; split; [by eapply visit_other_room|done]].
  destruct (decide (length (Chan.buf (send cl)) < Chan.cap (send cl))) as [Hl|Hl].
  - eexists. split; [by eapply visit_sent|].
    intros d Hd. simpl in Hd. apply is_open_Some. simpl.
    destruct (decide (d = c)) as [->|Hne].
    + rewrite lookup_insert_eq. eauto.
    + rewrite lookup_insert_ne by done. apply is_open_Some. by apply Hwf.
  - eexists. split; [by eapply visit_full|].
    intros d Hd. simpl in Hd. apply is_open_Some. simpl.
    destruct (decide (d = c)) as [->|Hne].
    + rewrite lookup_delete_eq in Hd. by destruct Hd.
    + rewrite lookup_delete_ne in Hd by done.
      rewrite lookup_insert_ne by done. apply is_open_Some. by apply Hwf.
Qed.

(** ** Lemmas on the whole loop *)

Lemma range_frame message order : ∀ s s' d,
  broadcast_range message order s = Some s' → d ∉ order →
  heap s' !! d = heap s !! d ∧ clients s' !! d = clients s !! d.
Proof.
  induction order as [|c rest IH]; simpl; intros s s' d H Hd.
  - by injection H as <-.
  - destruct (broadcast_visit message c s) as [s1|] eqn:Hv; simpl in H; [|done].
    apply not_elem_of_cons in Hd as [Hne Hd].
    destruct (IH _ _ _ H Hd) as [-> ->]. by eapply visit_frame.
Qed.

Lemma range_wf message order : ∀ s,
  wf s → ∃ s', broadcast_range message order s = Some s' ∧ wf s'.
Proof.
  induction order as [|c rest IH]; simpl; intros s Hwf; [eauto|].
  destruct (visit_wf message c s Hwf) as (s1 & -> & Hwf1). simpl. by apply IH.
Qed.

(** After the loop, a client of the order is as one visit of it on the
    initial state leaves it. *)
Lemma range_at message order : ∀ s s' d,
  NoDup order → d ∈ order → broadcast_range message order s = Some s' →
  ∃ s1, broadcast_visit message d s = Some s1 ∧
        heap s' !! d = heap s1 !! d ∧ clients s' !! d = clients s1 !! d.
Proof.
  induction order as [|c rest IH]; simpl; intros s s' d Hnd Hin H.
  - by apply not_elem_of_nil in Hin.
  - destruct (broadcast_visit message c s) as [s2|] eqn:Hv; simpl in H; [|done].
    apply NoDup_cons in Hnd as [Hc Hnd].
    destruct (decide (d = c)) as [->|Hne].
    + exists s2. split; [done|]. by eapply range_frame.
    + apply elem_of_cons in Hin as [?|Hin]; [done|].
      destruct (IH _ _ _ Hnd Hin H) as (s3 & Hv3 & Hh & Hcl).
      destruct (visit_frame _ _ _ _ d Hv Hne) as [Hh2 Hc2].
      destruct (visit_local message d s s2 s3) as (s1 & Hv1 & Hh1 & Hc1); [done..|].
      exists s1. split; [done|]. by rewrite Hh, Hcl, Hh1, Hc1.
Qed.

Lemma keys_range_order s : range_order s (keys s).
Proof.
  split; [apply NoDup_fst_map_to_list|].
  intros c. unfold keys. rewrite list_elem_of_fmap. split.
  - intros ([c' b] & -> & Hin). apply elem_of_map_to_list in Hin. by eexists.
  - intros [b Hb]. exists (c, b). split; [done|]. by apply elem_of_map_to_list.
Qed.

(** The loop panics exactly when the visit of some client of the order
    would panic on the initial state. *)
Lemma range_is_Some message order : ∀ s,
  NoDup order →
  (is_Some (broadcast_range message order s) ↔
   ∀ c, c ∈ order → is_Some (broadcast_visit message c s)).
Proof.
  induction order as [|c rest IH]; simpl; intros s Hnd.
  - split; [intros _ c Hc; by apply not_elem_of_nil in Hc|by eexists].
  - apply NoDup_cons in Hnd as [Hc Hnd]. split.
    + intros [s' H] d Hd.
      destruct (range_at message (c :: rest) s s' d) as (s1 & -> & _);
        [by apply NoDup_cons|done|done|by eexists].
    + intros Hall. destruct (Hall c) as [s2 Hv]; [by left|].
      rewrite Hv. simpl. apply IH; [done|]. intros d Hd.
      assert (d ≠ c) as Hne by (intros ->; done).
      destruct (Hall d) as [s3 Hv3]; [by right|].
      destruct (visit_frame _ _ _ _ d Hv Hne) as [Hh2 Hc2].
      destruct (visit_local message d s2 s s3) as (s4 & -> & _); [done..|].
      by eexists.
Qed.

(** The result of the loop does not depend on the order in which Go
    iterates over the map. *)
Lemma broadcast_order_irrelevant message s order1 order2 :
  NoDup order1 → NoDup order2 → (∀ c, c ∈ order1 ↔ c ∈ order2) →
  broadcast_range message order1 s = broadcast_range message order2 s.
Proof.
  intros Hnd1 Hnd2 Hsame.
  destruct (broadcast_range message order1 s) as [s1|] eqn:H1.
  - assert (is_Some (broadcast_range message order2 s)) as [s2 H2].
    { apply range_is_Some; [done|]. intros c Hc.
      eapply (range_is_Some message order1); [done|by eexists|by apply Hsame]. }
    rewrite H2. f_equal.
    assert (∀ d, heap s1 !! d = heap s2 !! d ∧ clients s1 !! d = clients s2 !! d)
      as Hpt.
    { intros d. destruct (decide (d ∈ order1)) as [Hin|Hout].
      - destruct (range_at _ _ _ _ d Hnd1 Hin H1) as (sa & Hva & -> & ->).
        apply Hsame in Hin.
        destruct (range_at _ _ _ _ d Hnd2 Hin H2) as (sb & Hvb & -> & ->).
        rewrite Hva in Hvb. by injection Hvb as ->.
      - destruct (range_frame _ _ _ _ d H1 Hout) as [-> ->].
        assert (d ∉ order2) as Hout2 by (intros ?; by apply Hout, Hsame).
        by destruct (range_frame _ _ _ _ d H2 Hout2) as [-> ->]. }
    destruct s1 as [h1 c1], s2 as [h2 c2]. simpl in Hpt.
    f_equal; apply map_eq; intros d; by destruct (Hpt d).
  - destruct (broadcast_range message order2 s) as [s2|] eqn:H2; [|done].
    assert (is_Some (broadcast_range message order1 s)) as [s1 H1'].
    { apply range_is_Some; [done|]. intros c Hc.
      eapply (range_is_Some message order2); [done|by eexists|by apply Hsame]. }
    congruence.
Qed.

Lemma Hub_broadcast_any_order message s order :
  range_order s order → Hub_broadcast message s = broadcast_range message order s.
Proof.
  intros [Hnd Hin]. destruct (keys_range_order s) as [Hnd' Hin'].
  apply broadcast_order_irrelevant; [done..|].
  intros c. by rewrite Hin, Hin'.
Qed.

(** ** The loop and the write pumps

    The write pump of a client receives from its queue while the hub
    loops.  A receive by [d] commutes with the visit of any other client,
    so a receive that falls inside a broadcast acts as one just before it
    (when [d] has not been visited yet) or just after it: taking the
    broadcast case as one move loses no behaviour. *)

Lemma visit_recv_commute message c d s :
  c ≠ d →
  broadcast_visit message c (writePump_recv d s) =
  writePump_recv d <$> broadcast_visit message c s.
Proof.
  intros Hne.
  assert (clients (writePump_recv d s) = clients s) as Hcs.
  { unfold writePump_recv. destruct (heap s !! d) as [cl|]; [|done].
    by destruct (Chan.recv (send cl)). }
  assert (heap (writePump_recv d s) !! c = heap s !! c) as Hhs.
  { unfold writePump_recv. destruct (heap s !! d) as [cl|]; [|done].
    destruct (Chan.recv (send cl)); [|done..]. simpl. by rewrite lookup_insert_ne. }
  unfold broadcast_visit. rewrite Hcs, Hhs.
  destruct (clients s !! c) as [b|]; [|done].
  destruct (heap s !! c) as [cl|] eqn:Hc; simpl; [|done].
  destruct (decide (room cl = Room message)); [|done].
  destruct (Chan.try_send message (send cl)) as [[ch'|]|]; simpl; [| |done].
  - f_equal. unfold writePump_recv. simpl. rewrite lookup_insert_ne by done.
    destruct (heap s !! d) as [cld|]; [|done].
    destruct (Chan.recv (send cld)); [|done..]. simpl.
    f_equal. by apply insert_insert_ne.
  - destruct (Chan.close (send cl)) as [ch|]; simpl; [|done].
    f_equal. unfold writePump_recv. simpl. rewrite lookup_insert_ne by done.
    destruct (heap s !! d) as [cld|]; [|done].
    destruct (Chan.recv (send cld)); [|done..]. simpl.
    f_equal. by apply insert_insert_ne.
Qed.

Lemma range_recv_commute message d order : ∀ s,
  d ∉ order →
  broadcast_range message order (writePump_recv d s) =
  writePump_recv d <$> broadcast_range message order s.
Proof.
  induction order as [|c rest IH]; simpl; intros s Hd; [done|].
  apply not_elem_of_cons in Hd as [Hne Hd].
  rewrite visit_recv_commute by done.
  destruct (broadcast_visit message c s) as [s1|]; simpl; [|done].
  by apply IH.
Qed.

(** A receive by [d] in the middle of the loop, before [d] is visited, is
    a receive before the loop; after [d] was visited, one after the loop. *)
Lemma range_recv_inside message d before after s :
  d ∉ before →
  (s1 ← broadcast_range message before s;
   broadcast_range message after (writePump_recv d s1)) =
  broadcast_range message (before ++ after) (writePump_recv d s) ∧
  (d ∉ after →
   (s1 ← broadcast_range message before s;
    broadcast_range message after (writePump_recv d s1)) =
   writePump_recv d <$> broadcast_range message (before ++ after) s).
Proof.
  intros Hb.
  assert (∀ o1 o2 s0, broadcast_range message (o1 ++ o2) s0 =
            broadcast_range message o1 s0 ≫= broadcast_range message o2) as Happ.
  { induction o1 as [|c o1 IH]; simpl; intros o2 s0; [done|].
    destruct (broadcast_visit message c s0); simpl; [apply IH|done]. }
  split.
  - rewrite Happ, range_recv_commute by done.
    by destruct (broadcast_range message before s).
  - intros Ha. rewrite Happ.
    destruct (broadcast_range message before s) as [s1|]; simpl; [|done].
    by apply range_recv_commute.
Qed.

(** What one broadcast does to a registered client, by case. *)
Lemma range_member message order s s' c b cl :
  wf s → range_order s order → broadcast_range message order s = Some s' →
  clients s !! c = Some b → heap s !! c = Some cl →
  (room cl ≠ Room message →
     heap s' !! c = Some cl ∧ clients s' !! c = Some b) ∧
  (room cl = Room message → length (Chan.buf (send cl)) < Chan.cap (send cl) →
     heap s' !! c = Some (with_send cl (Chan.mk (Chan.buf (send cl) ++ [message])
                                               (Chan.cap (send cl)) false)) ∧
     clients s' !! c = Some b) ∧
  (room cl = Room message → ¬ length (Chan.buf (send cl)) < Chan.cap (send cl) →
     heap s' !! c = Some (with_send cl (Chan.mk (Chan.buf (send cl))
                                               (Chan.cap (send cl)) true)) ∧
     clients s' !! c = None).
Proof.
  intros Hwf [Hnd Hin] H Hc Hh.
  assert (c ∈ order) as Hco by (apply Hin; by eexists).
  destruct (range_at _ _ _ _ c Hnd Hco H) as (s1 & Hv & -> & ->).
  destruct (proj1 (is_open_Some s c) (Hwf c (ex_intro _ b Hc))) as (cl' & Hh' & Ho).
  assert (cl' = cl) as -> by congruence.
  split; [|split].
  - intros Hr. rewrite (visit_other_room _ _ _ _ Hh Hr) in Hv. by injection Hv as <-.
  - intros Hr Hl. rewrite (visit_sent _ _ _ _ _ Hc Hh Hr Ho Hl) in Hv.
    injection Hv as <-. simpl. by rewrite lookup_insert_eq.
  - intros Hr Hl. rewrite (visit_full _ _ _ _ _ Hc Hh Hr Ho Hl) in Hv.
    injection Hv as <-. simpl. by rewrite lookup_insert_eq, lookup_delete_eq.
Qed.

(** A broadcast does not touch a client that is not registered. *)
Lemma range_nonmember message order s s' c :
  range_order s order → broadcast_range message order s = Some s' →
  clients s !! c = None →
  heap s' !! c = heap s !! c ∧ clients s' !! c = None.
Proof.
  intros [_ Hin] H Hc.
  assert (c ∉ order) as Hout.
  { intros [b Hb]%Hin. congruence. }
  destruct (range_frame _ _ _ _ c H Hout) as [-> ->]. done.
Qed.

Lemma wfb_wf s : wfb s = true → wf s.
Proof.
  unfold wfb. intros H%bool_decide_eq_true c [b Hb]. by apply (H c b).
Qed.

(** ** Room isolation *)

(** C1.  A broadcast of a message of room R, in whatever order Go iterates
    over the map, does not panic on a well-formed hub and (1) appends the
    message to the queue of every registered client of room R that is
    still registered afterwards, (2) keeps exactly those clients of room R
    whose queue had room, (3) leaves the struct, queue included, and the
    registration of every client of another room as they were, and (4)
    leaves unregistered clients alone. *)
Theorem broadcast_room_isolation message s order :
  wf s → range_order s order →
  ∃ s', broadcast_range message order s = Some s' ∧
        Hub_broadcast message s = Some s' ∧
    (∀ c, is_Some (clients s !! c) → in_room s c (Room message) →
          is_Some (clients s' !! c) → enqueued message s s' c) ∧
    (∀ c, is_Some (clients s !! c) → in_room s c (Room message) →
          (is_Some (clients s' !! c) ↔ ¬ queue_full s c)) ∧
    (∀ c cl, heap s !! c = Some cl → room cl ≠ Room message →
          heap s' !! c = Some cl ∧ clients s' !! c = clients s !! c) ∧
    (∀ c, clients s !! c = None →
          heap s' !! c = heap s !! c ∧ clients s' !! c = None).
Proof.
  intros Hwf Hord.
  destruct (range_wf message order s Hwf) as (s' & H & _).
  exists s'. split; [done|]. split; [by rewrite (Hub_broadcast_any_order _ _ order)|].
  split; [|split; [|split]].
  - intros c [b Hc] (cl & Hh & Hr) Hpresent.
    destruct (range_member _ _ _ _ _ _ _ Hwf Hord H Hc Hh) as (_ & Hsent & Hfull).
    destruct (decide (length (Chan.buf (send cl)) < Chan.cap (send cl))) as [Hl|Hl].
    + exists cl. split; [done|]. by apply Hsent.
    + destruct (Hfull Hr Hl) as [_ Hgone]. rewrite Hgone in Hpresent.
      by destruct Hpresent.
  - intros c [b Hc] (cl & Hh & Hr).
    destruct (range_member _ _ _ _ _ _ _ Hwf Hord H Hc Hh) as (_ & Hsent & Hfull).
    destruct (decide (length (Chan.buf (send cl)) < Chan.cap (send cl))) as [Hl|Hl].
    + destruct (Hsent Hr Hl) as [_ ->]. split; [|by eexists].
      intros _ (cl' & Hh' & Hfl). congruence.
    + destruct (Hfull Hr Hl) as [_ ->]. split; [by intros []|].
      intros Hnf. exfalso. apply Hnf. by exists cl.
  - intros c cl Hh Hr. destruct (clients s !! c) as [b|] eqn:Hc.
    + by apply (range_member _ _ _ _ _ _ _ Hwf Hord H Hc Hh).
    + destruct (range_nonmember _ _ _ _ c Hord H Hc) as [-> ->]. done.
  - intros c Hc. by apply (range_nonmember _ _ _ _ c Hord H Hc).
Qed.

Lemma broadcast_room_isolation_witness :
  wf ex_hub ∧ range_order ex_hub (keys ex_hub) ∧
  ∃ s', broadcast_range hello (keys ex_hub) ex_hub = Some s' ∧
        Hub_broadcast hello ex_hub = Some s' ∧
    (∀ c, is_Some (clients ex_hub !! c) → in_room ex_hub c (Room hello) →
          is_Some (clients s' !! c) → enqueued hello ex_hub s' c) ∧
    (∀ c, is_Some (clients ex_hub !! c) → in_room ex_hub c (Room hello) →
          (is_Some (clients s' !! c) ↔ ¬ queue_full ex_hub c)) ∧
    (∀ c cl, heap ex_hub !! c = Some cl → room cl ≠ Room hello →
          heap s' !! c = Some cl ∧ clients s' !! c = clients ex_hub !! c) ∧
    (∀ c, clients ex_hub !! c = None →
          heap s' !! c = heap ex_hub !! c ∧ clients s' !! c = None).
Proof.
  split; [apply wfb_wf; vm_compute; reflexivity|].
  split; [apply keys_range_order|].
  apply (broadcast_room_isolation hello ex_hub (keys ex_hub)).
  - apply wfb_wf. vm_compute. reflexivity.
  - apply keys_range_order.
Defined.

(** ** The hub's operations keep the state well-formed *)

Lemma is_open_ext s s' c : heap s !! c = heap s' !! c → is_open s c = is_open s' c.
Proof. unfold is_open. by intros ->. Qed.

Lemma is_closed_ext s s' c :
  heap s !! c = heap s' !! c → is_closed s c = is_closed s' c.
Proof. unfold is_closed. by intros ->. Qed.

Lemma open_not_closed s c : is_open s c = true → is_closed s c = true → False.
Proof.
  unfold is_open, is_closed. destruct (heap s !! c) as [cl|]; [|done].
  by destruct (Chan.closed (send cl)).
Qed.

Lemma Hub_broadcast_wf message s :
  wf s → ∃ s', Hub_broadcast message s = Some s' ∧ wf s'.
Proof. apply range_wf. Qed.

(** Unregister of a registered client on a well-formed state. *)
Lemma unregister_present c s b :
  wf s → clients s !! c = Some b →
  ∃ cl, heap s !! c = Some cl ∧ Chan.closed (send cl) = false ∧
        Hub_unregister c s = Some (evicted_state c cl s).
Proof.
  intros Hwf Hc.
  destruct (proj1 (is_open_Some s c) (Hwf c (ex_intro _ b Hc))) as (cl & Hh & Ho).
  exists cl. split; [done|]. split; [done|].
  unfold Hub_unregister, Chan.close. rewrite Hc, Hh. simpl. by rewrite Ho.
Qed.

Lemma unregister_absent c s : clients s !! c = None → Hub_unregister c s = Some s.
Proof. unfold Hub_unregister. by intros ->. Qed.

Lemma evicted_state_wf c cl s :
  wf s → wf (evicted_state c cl s).
Proof.
  intros Hwf d Hd. simpl in Hd. destruct (decide (d = c)) as [->|Hne].
  - rewrite lookup_delete_eq in Hd. by destruct Hd.
  - rewrite lookup_delete_ne in Hd by done.
    rewrite <- (Hwf d Hd). apply is_open_ext. simpl. by rewrite lookup_insert_ne.
Qed.

Lemma Hub_unregister_wf c s :
  wf s → ∃ s', Hub_unregister c s = Some s' ∧ wf s'.
Proof.
  intros Hwf. destruct (clients s !! c) as [b|] eqn:Hc.
  - destruct (unregister_present c s b Hwf Hc) as (cl & _ & _ & ->).
    eexists. split; [done|]. by apply evicted_state_wf.
  - exists s. split; [by apply unregister_absent|done].
Qed.

Lemma perform_wf a s :
  wf s → admissible s a → ∃ s', perform a s = Some s' ∧ wf s'.
Proof.
  intros Hwf Ha. destruct a as [c u r|[c|c|m]|c]; simpl in *.
  - eexists. split; [done|]. intros d Hd. simpl in Hd.
    assert (d ≠ c) as Hne.
    { intros ->. apply Hwf in Hd. apply is_open_Some in Hd as (cl & Hh & _).
      rewrite Ha in Hh. done. }
    rewrite <- (Hwf d Hd). apply is_open_ext. simpl. by rewrite lookup_insert_ne.
  - eexists. split; [done|]. intros d Hd. simpl in Hd.
    destruct (decide (d = c)) as [->|Hne]; [done|].
    rewrite lookup_insert_ne in Hd by done. by apply Hwf.
  - by apply Hub_unregister_wf.
  - by apply Hub_broadcast_wf.
  - eexists. split; [done|]. intros d Hd.
    assert (clients (writePump_recv c s) = clients s) as Hcs.
    { unfold writePump_recv. destruct (heap s !! c) as [cl|]; [|done].
      by destruct (Chan.recv (send cl)). }
    rewrite Hcs in Hd. specialize (Hwf d Hd). revert Hwf.
    unfold writePump_recv, is_open.
    destruct (heap s !! c) as [cl|] eqn:Hh; [|done].
    unfold Chan.recv. destruct (Chan.buf (send cl)) as [|m rest]; [by destruct (Chan.closed _)|].
    simpl. destruct (decide (d = c)) as [->|Hne].
    + rewrite Hh, lookup_insert_eq. done.
    + by rewrite lookup_insert_ne.
Qed.

Lemma run_wf s acts s2 : run s acts s2 → wf s → wf s2.
Proof.
  induction 1 as [|s a s1 acts s2 Ha Hp _ IH]; [done|].
  intros Hwf. apply IH.
  destruct (perform_wf a s Hwf Ha) as (s1' & Hp' & Hwf1).
  rewrite Hp in Hp'. by injection Hp' as <-.
Qed.

Lemma NewHub_wf : wf NewHub.
Proof. intros c [b Hb]. simpl in Hb. by rewrite lookup_empty in Hb. Qed.

Lemma reachable_wf s : reachable s → wf s.
Proof. intros [acts Hrun]. eapply run_wf; [done|apply NewHub_wf]. Qed.

Lemma run_app s acts1 s1 acts2 s2 :
  run s acts1 s1 → run s1 acts2 s2 → run s (acts1 ++ acts2) s2.
Proof.
  induction 1 as [|s a s' acts s1 Ha Hp _ IH]; simpl; [done|].
  intros H2. eapply run_cons; eauto.
Qed.

(** ** A closed queue stays closed, a client that left stays out *)

Lemma visit_closed message d s s' c :
  broadcast_visit message d s = Some s' →
  is_closed s c = true → is_closed s' c = true.
Proof.
  intros H Hcl.
  apply visit_inv in H as [->|(cl & b & _ & Hh & _ & Ho & [[_ ->]|[_ ->]])];
    [done|..]; unfold is_closed in *; simpl;
    (destruct (decide (c = d)) as [->|Hne];
     [rewrite lookup_insert_eq; rewrite Hh in Hcl; simpl in *; congruence
     |by rewrite lookup_insert_ne]).
Qed.

Lemma range_closed message order c : ∀ s s',
  broadcast_range message order s = Some s' →
  is_closed s c = true → is_closed s' c = true.
Proof.
  induction order as [|d rest IH]; simpl; intros s s' H Hcl.
  - by injection H as <-.
  - destruct (broadcast_visit message d s) as [s1|] eqn:Hv; simpl in H; [|done].
    eapply IH; [done|]. by eapply visit_closed.
Qed.

Lemma Hub_broadcast_nonmember message s s' c :
  Hub_broadcast message s = Some s' → clients s !! c = None →
  heap s' !! c = heap s !! c ∧ clients s' !! c = None.
Proof. intros H Hc. eapply range_nonmember; [apply keys_range_order|done..]. Qed.

Lemma perform_closed a s s' c :
  admissible s a → perform a s = Some s' →
  is_closed s c = true → is_closed s' c = true.
Proof.
  intros Ha Hp Hcl. destruct a as [d u r|[d|d|m]|d]; simpl in *.
  - injection Hp as <-. rewrite <- Hcl. apply is_closed_ext. simpl.
    rewrite lookup_insert_ne; [done|]. intros ->.
    unfold is_closed in Hcl. by rewrite Ha in Hcl.
  - by injection Hp as <-.
  - unfold Hub_unregister in Hp. destruct (clients s !! d); [|by injection Hp as <-].
    destruct (heap s !! d) as [cl|] eqn:Hh; simpl in Hp; [|done].
    unfold Chan.close in Hp. destruct (Chan.closed (send cl)) eqn:Ho; simpl in Hp; [done|].
    injection Hp as <-. unfold is_closed in *. simpl.
    destruct (decide (c = d)) as [->|Hne].
    + by rewrite lookup_insert_eq.
    + by rewrite lookup_insert_ne.
  - by eapply range_closed.
  - injection Hp as <-. revert Hcl. unfold writePump_recv, is_closed.
    destruct (heap s !! d) as [cl|] eqn:Hh; [|done].
    unfold Chan.recv. destruct (Chan.buf (send cl)) as [|m rest];
      [by destruct (Chan.closed _)|].
    simpl. destruct (decide (c = d)) as [->|Hne].
    + rewrite Hh, lookup_insert_eq. done.
    + by rewrite lookup_insert_ne.
Qed.

Lemma perform_gone a s s' c :
  admissible s a → perform a s = Some s' → gone s c → gone s' c.
Proof.
  intros Ha Hp [Hc Hcl]. split; [|by eapply perform_closed].
  destruct a as [d u r|[d|d|m]|d]; simpl in *.
  - by injection Hp as <-.
  - injection Hp as <-. simpl. rewrite lookup_insert_ne; [done|].
    intros ->. by eapply open_not_closed.
  - unfold Hub_unregister in Hp. destruct (clients s !! d); [|by injection Hp as <-].
    destruct (heap s !! d) as [cl|]; simpl in Hp; [|done].
    destruct (Chan.close (send cl)); simpl in Hp; [|done].
    injection Hp as <-. simpl. apply lookup_delete_None. by right.
  - by eapply Hub_broadcast_nonmember.
  - injection Hp as <-. unfold writePump_recv.
    destruct (heap s !! d) as [cl|]; [|done]. by destruct (Chan.recv (send cl)).
Qed.

Lemma run_gone s acts s2 c : run s acts s2 → gone s c → gone s2 c.
Proof.
  induction 1 as [|s a s1 acts s2 Ha Hp _ IH]; [done|].
  intros Hg. apply IH. by eapply perform_gone.
Qed.

Lemma closings_closed s acts s2 c :
  run s acts s2 → is_closed s c = true → closings c acts s = 0.
Proof.
  induction 1 as [|s a s1 acts s2 Ha Hp _ IH]; [done|].
  intros Hcl. simpl. rewrite Hp.
  assert (is_open s c = false) as ->.
  { destruct (is_open s c) eqn:Ho; [|done]. exfalso. by eapply open_not_closed. }
  simpl. apply IH. by eapply perform_closed.
Qed.

Lemma closings_le_1 s acts s2 c : run s acts s2 → (closings c acts s ≤ 1)%nat.
Proof.
  induction 1 as [|s a s1 acts s2 Ha Hp Hrun IH]; simpl; [lia|].
  rewrite Hp. destruct (is_open s c && is_closed s1 c) eqn:Hb; [|simpl; lia].
  apply andb_true_iff in Hb as [_ Hcl].
  rewrite (closings_closed _ _ _ _ Hrun Hcl). lia.
Qed.

(** ** Backpressure eviction *)

(** C2.  If a registered client of the message's room has a full queue
    when a broadcast runs, then within that broadcast (whatever the
    iteration order, without panic) its queue is closed with its content
    unchanged (the message is not queued: no retry) and the client is
    deleted from [clients]; this is the only close of that queue in any
    run that continues from there, and every later broadcast neither
    visits the client nor touches its struct. *)
Theorem broadcast_evicts_full message s order c :
  wf s → range_order s order →
  is_Some (clients s !! c) → in_room s c (Room message) → queue_full s c →
  ∃ s' cl,
    broadcast_range message order s = Some s' ∧
    Hub_broadcast message s = Some s' ∧
    heap s !! c = Some cl ∧ Chan.closed (send cl) = false ∧
    heap s' !! c = Some (mkClient (username cl) (room cl) (Chan.mk (Chan.buf (send cl))
                                              (Chan.cap (send cl)) true)) ∧
    clients s' !! c = None ∧
    ∀ acts s2, run s' acts s2 →
      closings c (HubStep (Broadcast message) :: acts) s = 1%nat ∧
      ∀ message2 order2, range_order s2 order2 →
        (c ∉ order2) ∧
        ∃ s3, broadcast_range message2 order2 s2 = Some s3 ∧
              Hub_broadcast message2 s2 = Some s3 ∧
              heap s3 !! c = heap s2 !! c ∧ gone s3 c.
Proof.
  intros Hwf Hord [b Hc] (cl & Hh & Hr) (cl' & Hh' & Hfull).
  assert (cl' = cl) as -> by congruence.
  destruct (range_wf message order s Hwf) as (s' & H & Hwf').
  assert (Hub_broadcast message s = Some s') as HH
    by by rewrite (Hub_broadcast_any_order _ _ order).
  destruct (range_member _ _ _ _ _ _ _ Hwf Hord H Hc Hh) as (_ & _ & Hev).
  destruct (Hev Hr Hfull) as [Hh1 Hc1].
  destruct (proj1 (is_open_Some s c) (Hwf c (ex_intro _ b Hc))) as (cl2 & Hh2 & Ho).
  assert (cl2 = cl) as -> by congruence.
  assert (is_closed s' c = true) as Hcl by (unfold is_closed; by rewrite Hh1).
  exists s', cl. repeat (split; [done|]).
  intros acts s2 Hrun. split.
  - simpl. rewrite HH. rewrite (Hwf c (ex_intro _ b Hc)), Hcl. simpl.
    by rewrite (closings_closed _ _ _ _ Hrun Hcl).
  - intros message2 order2 Hord2.
    destruct (run_gone _ _ _ c Hrun (conj Hc1 Hcl)) as [Hc2 Hcl2].
    split.
    { intros Hin. apply Hord2 in Hin as [b2 Hb2]. congruence. }
    destruct (range_wf message2 order2 s2 (run_wf _ _ _ Hrun Hwf')) as (s3 & H3 & _).
    exists s3. split; [done|].
    split; [by rewrite (Hub_broadcast_any_order _ _ order2)|].
    destruct (range_nonmember _ _ _ _ c Hord2 H3 Hc2) as [Hh3 Hc3].
    split; [done|]. split; [done|].
    rewrite <- Hcl2. by apply is_closed_ext.
Qed.

Lemma broadcast_evicts_full_witness :
  ∃ s' cl,
    broadcast_range hello (keys ex_hub) ex_hub = Some s' ∧
    Hub_broadcast hello ex_hub = Some s' ∧
    heap ex_hub !! 2%positive = Some cl ∧ Chan.closed (send cl) = false ∧
    heap s' !! 2%positive =
      Some (mkClient (username cl) (room cl)
            (Chan.mk (Chan.buf (send cl)) (Chan.cap (send cl)) true)) ∧
    clients s' !! 2%positive = None ∧
    ∀ acts s2, run s' acts s2 →
      closings 2%positive (HubStep (Broadcast hello) :: acts) ex_hub = 1%nat ∧
      ∀ message2 order2, range_order s2 order2 →
        (2%positive ∉ order2) ∧
        ∃ s3, broadcast_range message2 order2 s2 = Some s3 ∧
              Hub_broadcast message2 s2 = Some s3 ∧
              heap s3 !! 2%positive = heap s2 !! 2%positive ∧ gone s3 2%positive.
Proof.
  apply (broadcast_evicts_full hello ex_hub (keys ex_hub) 2%positive).
  - apply wfb_wf. vm_compute. reflexivity.
  - apply keys_range_order.
  - exists true. vm_compute. reflexivity.
  - eexists. split; [vm_compute; reflexivity|]. reflexivity.
  - eexists. split; [vm_compute; reflexivity|]. simpl. lia.
Defined.

(** ** Closing and removing go together *)

(** In one turn of the hub loop, a queue goes from open to closed exactly
    when its client goes from registered to unregistered. *)
Lemma hub_step_close_iff_remove rq s s' c :
  wf s → Hub_Run_step rq s = Some s' →
  (is_open s c = true ∧ is_closed s' c = true) ↔
  (is_Some (clients s !! c) ∧ clients s' !! c = None).
Proof.
  intros Hwf Hstep. destruct rq as [d|d|m]; simpl in Hstep.
  - injection Hstep as <-. simpl. split.
    + intros [Ho Hcl]. exfalso. eapply open_not_closed; [done|].
      rewrite <- Hcl. by apply is_closed_ext.
    + intros [[b Hb] Hnone]. exfalso.
      destruct (decide (c = d)) as [->|Hne].
      * by rewrite lookup_insert_eq in Hnone.
      * rewrite lookup_insert_ne in Hnone by done. congruence.
  - destruct (clients s !! d) as [b|] eqn:Hd.
    + destruct (unregister_present d s b Hwf Hd) as (cl & Hh & Ho & Hun).
      rewrite Hun in Hstep. injection Hstep as <-. simpl.
      destruct (decide (c = d)) as [->|Hne].
      * split; intros _.
        -- split; [by eexists|]. by rewrite lookup_delete_eq.
        -- split; [apply Hwf; by eexists|].
           unfold is_closed. simpl. by rewrite lookup_insert_eq.
      * rewrite lookup_delete_ne by done. split.
        -- intros [Ho' Hcl]. exfalso. eapply open_not_closed; [done|].
           rewrite <- Hcl. apply is_closed_ext. simpl. by rewrite lookup_insert_ne.
        -- intros [[b' Hb] Hnone]. congruence.
    + rewrite (unregister_absent d s Hd) in Hstep. injection Hstep as <-. split.
      * intros [Ho Hcl]. exfalso. by eapply open_not_closed.
      * intros [[b' Hb] Hnone]. congruence.
  - pose proof (keys_range_order s) as Hord.
    destruct (clients s !! c) as [b|] eqn:Hc.
    + destruct (proj1 (is_open_Some s c) (Hwf c (ex_intro _ b Hc))) as (cl & Hh & Ho).
      destruct (range_member _ _ _ _ _ _ _ Hwf Hord Hstep Hc Hh)
        as (Hother & Hsent & Hfull).
      destruct (decide (room cl = Room m)) as [Hr|Hr].
      * destruct (decide (length (Chan.buf (send cl)) < Chan.cap (send cl)))
          as [Hl|Hl].
        -- destruct (Hsent Hr Hl) as [Hh' Hc']. rewrite Hc'. split.
           ++ intros [_ Hcl]. unfold is_closed in Hcl. by rewrite Hh' in Hcl.
           ++ by intros [_ ?].
        -- destruct (Hfull Hr Hl) as [Hh' Hc']. rewrite Hc'. split; intros _.
           ++ split; [by eexists|done].
           ++ split; [apply Hwf; by eexists|].
              unfold is_closed. by rewrite Hh'.
      * destruct (Hother Hr) as [Hh' Hc']. rewrite Hc'. split.
        -- intros [_ Hcl]. unfold is_closed in Hcl. rewrite Hh' in Hcl. congruence.
        -- by intros [_ ?].
    + destruct (range_nonmember _ _ _ _ c Hord Hstep Hc) as [Hh' Hc']. split.
      * intros [Ho Hcl]. exfalso. eapply open_not_closed; [done|].
        rewrite <- Hcl. by apply is_closed_ext.
      * by intros [[b' ?] _].
Qed.

(** Only the hub closes queues: allocation and the write pump do not. *)
Lemma perform_closes_only_in_hub a s s' c :
  admissible s a → perform a s = Some s' →
  is_open s c = true → is_closed s' c = true → ∃ rq, a = HubStep rq.
Proof.
  intros Ha Hp Ho Hcl. destruct a as [d u r|rq|d]; [|by eexists|]; exfalso;
    simpl in *; injection Hp as <-.
  - unfold is_open, is_closed in *. simpl in *.
    destruct (decide (c = d)) as [->|Hne].
    + by rewrite Ha in Ho.
    + rewrite lookup_insert_ne in Hcl by done.
      destruct (heap s !! c) as [cl|]; [|done]. by destruct (Chan.closed (send cl)).
  - revert Hcl. unfold writePump_recv.
    destruct (heap s !! d) as [cl|] eqn:Hh; [|by intros ?; eapply open_not_closed].
    unfold Chan.recv. destruct (Chan.buf (send cl)) as [|m rest].
    + destruct (Chan.closed (send cl)); intros ?; by eapply open_not_closed.
    + unfold is_open, is_closed in *. simpl.
      destruct (decide (c = d)) as [->|Hne].
      * rewrite lookup_insert_eq. rewrite Hh in Ho. simpl.
        by destruct (Chan.closed (send cl)).
      * rewrite lookup_insert_ne by done.
        destruct (heap s !! c) as [cl'|]; [|done]. by destruct (Chan.closed (send cl')).
Qed.

(** C9.  In every state reachable from the empty hub by client
    allocations, hub requests and write-pump receives: (1) every
    admissible hub request (register, unregister, broadcast) is handled
    without panic, so no queue is closed twice, and in it a queue is closed
    exactly when its client leaves [clients], having been registered
    before; (2) nothing but a hub request closes a queue; (3) over the
    whole run that led there, and over every run that continues from
    there, each client's queue is closed at most once. *)
Theorem queue_closed_at_most_once acts s :
  run NewHub acts s →
  (∀ rq, admissible s (HubStep rq) →
     ∃ s', Hub_Run_step rq s = Some s' ∧
       ∀ c, (is_open s c = true ∧ is_closed s' c = true) ↔
            (is_Some (clients s !! c) ∧ clients s' !! c = None)) ∧
  (∀ a s' c, admissible s a → perform a s = Some s' →
     is_open s c = true → is_closed s' c = true → ∃ rq, a = HubStep rq) ∧
  (∀ c, (closings c acts NewHub ≤ 1)%nat) ∧
  (∀ c acts' s2, run s acts' s2 → (closings c (acts ++ acts') NewHub ≤ 1)%nat).
Proof.
  intros Hrun. pose proof (run_wf _ _ _ Hrun NewHub_wf) as Hwf.
  split; [|split; [|split]].
  - intros rq Ha. destruct (perform_wf (HubStep rq) s Hwf Ha) as (s' & Hp & _).
    exists s'. split; [done|]. intros c. by eapply hub_step_close_iff_remove.
  - intros a s' c. apply perform_closes_only_in_hub.
  - intros c. by eapply closings_le_1.
  - intros c acts' s2 Hrun'. eapply closings_le_1. by eapply run_app.
Qed.

Lemma queue_closed_at_most_once_witness :
  ∃ s, run NewHub ex_acts s ∧ gone s 1%positive ∧
       ∀ c, (closings c ex_acts NewHub ≤ 1)%nat.
Proof.
  eexists. split; [unfold ex_acts; run_by_computation|].
  split; [split; vm_compute; reflexivity|].
  refine (proj1 (proj2 (proj2 (queue_closed_at_most_once ex_acts _ _)))).
  unfold ex_acts. run_by_computation.
Defined.

(** ** Idempotent teardown *)

Lemma unregister_result_absent c s s' :
  Hub_unregister c s = Some s' → clients s' !! c = None.
Proof.
  unfold Hub_unregister. destruct (clients s !! c) as [b|] eqn:Hc.
  - destruct (heap s !! c) as [cl|]; simpl; [|done].
    destruct (Chan.close (send cl)); simpl; [|done].
    intros [= <-]. simpl. by rewrite lookup_delete_eq.
  - by intros [= <-].
Qed.

(** C4.  On every state the hub handles two unregister requests for the
    same client exactly as it handles one; an unregister of a client that
    is not registered returns the state as it is; and on a well-formed
    state the first unregister succeeds, leaves the client unregistered,
    and the second one returns that same state without closing anything. *)
Theorem unregister_idempotent c s :
  Hub_Run [Unregister c; Unregister c] s = Hub_Run [Unregister c] s ∧
  (clients s !! c = None → Hub_unregister c s = Some s) ∧
  (wf s →
   ∃ s', Hub_unregister c s = Some s' ∧ clients s' !! c = None ∧
         Hub_unregister c s' = Some s' ∧
         closings c [HubStep (Unregister c); HubStep (Unregister c)] s =
         closings c [HubStep (Unregister c)] s).
Proof.
  split; [|split].
  - simpl. destruct (Hub_unregister c s) as [s'|] eqn:H; simpl; [|done].
    by rewrite (unregister_absent c s' (unregister_result_absent _ _ _ H)).
  - apply unregister_absent.
  - intros Hwf. destruct (Hub_unregister_wf c s Hwf) as (s' & H & _).
    pose proof (unregister_result_absent _ _ _ H) as Habs.
    pose proof (unregister_absent c s' Habs) as H2.
    exists s'. repeat (split; [done|]).
    simpl. rewrite H, H2. simpl.
    destruct (is_open s' c) eqn:Ho; simpl; [|lia].
    destruct (is_closed s' c) eqn:Hcl; simpl; [|lia].
    exfalso. by eapply open_not_closed.
Qed.

Lemma unregister_idempotent_witness :
  wf ex_hub ∧
  Hub_Run [Unregister 2%positive; Unregister 2%positive] ex_hub =
    Hub_Run [Unregister 2%positive] ex_hub ∧
  ∃ s', Hub_unregister 2%positive ex_hub = Some s' ∧
        clients s' !! 2%positive = None ∧
        Hub_unregister 2%positive s' = Some s'.
Proof.
  assert (wf ex_hub) as Hwf by (apply wfb_wf; vm_compute; reflexivity).
  split; [exact Hwf|].
  destruct (unregister_idempotent 2%positive ex_hub) as (Hrun & _ & Hok).
  split; [exact Hrun|].
  destruct (Hok Hwf) as (s' & H1 & H2 & H3 & _). by exists s'.
Defined.

(** ** Identity defaults and the join announcement *)

Lemma Values_Get_empty query key :
  Values_Get query key = "" ↔ missing_or_empty query key.
Proof.
  unfold Values_Get, missing_or_empty.
  destruct (query !! key) as [[|v rest]|]; split; intros H; auto.
  - subst. right. right. by exists rest.
  - destruct H as [|[|[rest' H]]]; congruence.
Qed.

(** C8.  The client struct that [handleWebSocket] allocates after a
    successful upgrade is bound to the identity resolved from the query:
    "Anonymous" when the username parameter is missing or empty, "general"
    when the room parameter is missing or empty, and the parameter's
    (first) value itself when it is not empty. *)
Theorem identity_defaults query client now s :
  ∃ U R,
    resolve_identity query = (U, R) ∧
    heap (handleWebSocket query true client now s).1 !! client =
      Some (mkClient U R (Chan.make 256)) ∧
    (missing_or_empty query "username" → U = "Anonymous") ∧
    (∀ v rest, query !! "username" = Some (v :: rest) → v ≠ "" → U = v) ∧
    (missing_or_empty query "room" → R = "general") ∧
    (∀ v rest, query !! "room" = Some (v :: rest) → v ≠ "" → R = v).
Proof.
  unfold handleWebSocket, resolve_identity. do 2 eexists.
  split; [reflexivity|]. simpl. split; [by rewrite lookup_insert_eq|].
  split; [|split; [|split]].
  - intros H%Values_Get_empty. by rewrite decide_True.
  - intros v rest H Hv. unfold Values_Get. rewrite H. by rewrite decide_False.
  - intros H%Values_Get_empty. by rewrite decide_True.
  - intros v rest H Hv. unfold Values_Get. rewrite H. by rewrite decide_False.
Qed.

Lemma identity_defaults_witness :
  resolve_identity (<["username" := ["Alice"]]> (<["room" := [""]]> ∅)) =
    ("Alice", "general") ∧
  resolve_identity ∅ = ("Anonymous", "general").
Proof.
  destruct (identity_defaults (<["username" := ["Alice"]]> (<["room" := [""]]> ∅))
              1%positive 0%Z NewHub) as (U & R & -> & _ & _ & HU & HR & _).
  destruct (identity_defaults ∅ 1%positive 0%Z NewHub)
    as (U' & R' & -> & _ & HU' & _ & HR' & _).
  rewrite (HU "Alice" []) by (vm_compute; done).
  rewrite HR by (right; right; exists []; vm_compute; reflexivity).
  rewrite HU' by (left; vm_compute; reflexivity).
  rewrite HR' by (left; vm_compute; reflexivity).
  done.
Defined.

(** ** The read pump *)

Section ReadPumpFacts.

Variable json_Unmarshal : list Byte.byte → Message → option Message.

Lemma readPump_decoded c cl data now rest msg :
  json_Unmarshal data zeroMessage = Some msg →
  readPump json_Unmarshal c cl (Frame data now :: rest) =
    (Broadcast (stamp cl now msg) :: (readPump json_Unmarshal c cl rest).1,
     (readPump json_Unmarshal c cl rest).2).
Proof.
  intros H. simpl. rewrite H.
  by destruct (readPump json_Unmarshal c cl rest).
Qed.

Lemma readPump_undecoded c cl data now rest :
  json_Unmarshal data zeroMessage = None →
  readPump json_Unmarshal c cl (Frame data now :: rest) =
    readPump json_Unmarshal c cl rest.
Proof. intros H. simpl. by rewrite H. Qed.


(** C5.  A frame that fails to decode is skipped: the pump goes on with
    the following reads exactly as if the frame had not arrived, wherever
    in the stream it sits; for that frame alone the pump hands nothing to
    the hub (no broadcast, no unregister) and is still reading, so the
    hub's state, every client's queue and registration included, is as
    before. *)
Theorem readPump_skips_undecodable c cl data now :
  json_Unmarshal data zeroMessage = None →
  (∀ before rest,
     readPump json_Unmarshal c cl (before ++ Frame data now :: rest) =
     readPump json_Unmarshal c cl (before ++ rest)) ∧
  readPump json_Unmarshal c cl [Frame data now] = ([], Reading) ∧
  (∀ s, Hub_Run (readPump json_Unmarshal c cl [Frame data now]).1 s = Some s).
Proof.
  intros H. split; [|split].
  - induction before as [|[d t|] before IH]; intros rest; simpl.
    + by rewrite H.
    + destruct (json_Unmarshal d zeroMessage); by rewrite IH.
    + done.
  - by rewrite readPump_undecoded.
  - intros s. by rewrite readPump_undecoded.
Qed.

(** C10.  For a decoded frame the message handed to the hub is the
    decoded message with its username, room and timestamp replaced and
    nothing else: type and content are the client's, also when the type
    is "join" or "leave". *)
Theorem readPump_passes_type_and_content c cl data now rest msg :
  json_Unmarshal data zeroMessage = Some msg →
  ∃ b,
    (readPump json_Unmarshal c cl (Frame data now :: rest)).1 =
      Broadcast b :: (readPump json_Unmarshal c cl rest).1 ∧
    b = mkMessage (Type_ msg) (username cl) (Content msg) (room cl) now ∧
    Type_ b = Type_ msg ∧ Content b = Content msg.
Proof.
  intros H. exists (stamp cl now msg).
  by rewrite (readPump_decoded _ _ _ _ _ _ H).
Qed.

End ReadPumpFacts.


Lemma readPump_skips_undecodable_witness :
  readPump ex_Unmarshal 1%positive alice
    [Frame [Byte.x01] 5%Z; Frame [Byte.xff] 6%Z; Frame [Byte.x02] 7%Z] =
  readPump ex_Unmarshal 1%positive alice
    [Frame [Byte.x01] 5%Z; Frame [Byte.x02] 7%Z] ∧
  Hub_Run (readPump ex_Unmarshal 1%positive alice [Frame [Byte.xff] 6%Z]).1 ex_hub =
    Some ex_hub.
Proof.
  destruct (readPump_skips_undecodable ex_Unmarshal 1%positive alice
              [Byte.xff] 6%Z) as (Hskip & _ & Hhub); [reflexivity|].
  split; [exact (Hskip [Frame [Byte.x01] 5%Z] [Frame [Byte.x02] 7%Z])|].
  apply Hhub.
Defined.

Lemma readPump_passes_type_and_content_witness :
  (readPump ex_Unmarshal 1%positive alice [Frame [Byte.x03] 5%Z]).1 =
  [Broadcast (mkMessage "join" "Alice" "Bob joined the room" "general" 5%Z)].
Proof.
  destruct (readPump_passes_type_and_content ex_Unmarshal 1%positive alice
              [Byte.x03] 5%Z []
              (mkMessage "join" "Mallory" "Bob joined the room" "secret" 99%Z))
    as (b & -> & -> & _); [reflexivity|].
  reflexivity.
Defined.

(** ** Further properties of the hub *)

Lemma Hub_Run_app rqs1 rqs2 s :
  Hub_Run (rqs1 ++ rqs2) s = Hub_Run rqs1 s ≫= Hub_Run rqs2.
Proof.
  revert s. induction rqs1 as [|rq rqs1 IH]; simpl; intros s; [done|].
  destruct (Hub_Run_step rq s); simpl; [apply IH|done].
Qed.

(** What a visit does to the struct of any client. *)
Lemma visit_struct message d s s' c cl :
  broadcast_visit message d s = Some s' → heap s !! c = Some cl →
  ∃ cl', heap s' !! c = Some cl' ∧
         username cl' = username cl ∧ room cl' = room cl ∧
         Chan.cap (send cl') = Chan.cap (send cl) ∧
         ((length (Chan.buf (send cl)) ≤ Chan.cap (send cl))%nat →
          (length (Chan.buf (send cl')) ≤ Chan.cap (send cl'))%nat).
Proof.
  intros H Hh.
  apply visit_inv in H as [->|(cld & b & _ & Hd & _ & _ & [[Hl ->]|[_ ->]])].
  - by exists cl.
  - simpl. destruct (decide (c = d)) as [->|Hne].
    + rewrite lookup_insert_eq. eexists. split; [done|].
      assert (cld = cl) as -> by congruence. simpl.
      repeat split. intros _. rewrite length_app. simpl. lia.
    + rewrite lookup_insert_ne by done. by exists cl.
  - simpl. destruct (decide (c = d)) as [->|Hne].
    + rewrite lookup_insert_eq. eexists. split; [done|].
      assert (cld = cl) as -> by congruence. by simpl.
    + rewrite lookup_insert_ne by done. by exists cl.
Qed.

Lemma range_struct message order : ∀ s s' c cl,
  broadcast_range message order s = Some s' → heap s !! c = Some cl →
  ∃ cl', heap s' !! c = Some cl' ∧
         username cl' = username cl ∧ room cl' = room cl ∧
         Chan.cap (send cl') = Chan.cap (send cl) ∧
         ((length (Chan.buf (send cl)) ≤ Chan.cap (send cl))%nat →
          (length (Chan.buf (send cl')) ≤ Chan.cap (send cl'))%nat).
Proof.
  induction order as [|d rest IH]; simpl; intros s s' c cl H Hh.
  - injection H as <-. by exists cl.
  - destruct (broadcast_visit message d s) as [s1|] eqn:Hv; simpl in H; [|done].
    destruct (visit_struct _ _ _ _ _ _ Hv Hh) as (cl1 & Hh1 & Hu1 & Hr1 & Hc1 & Hb1).
    destruct (IH _ _ _ _ H Hh1) as (cl2 & Hh2 & Hu2 & Hr2 & Hc2 & Hb2).
    exists cl2. split; [done|]. do 3 (split; [congruence|]).
    intros Hle. apply Hb2. by apply Hb1.
Qed.

(** What any move does to the struct of any client. *)
Lemma perform_struct a s s' c cl :
  admissible s a → perform a s = Some s' → heap s !! c = Some cl →
  ∃ cl', heap s' !! c = Some cl' ∧
         username cl' = username cl ∧ room cl' = room cl ∧
         Chan.cap (send cl') = Chan.cap (send cl) ∧
         ((length (Chan.buf (send cl)) ≤ Chan.cap (send cl))%nat →
          (length (Chan.buf (send cl')) ≤ Chan.cap (send cl'))%nat).
Proof.
  intros Ha Hp Hh. destruct a as [d u r|[d|d|m]|d]; simpl in *.
  - injection Hp as <-. simpl. exists cl.
    rewrite lookup_insert_ne; [done|]. intros ->. by rewrite Ha in Hh.
  - injection Hp as <-. by exists cl.
  - unfold Hub_unregister in Hp. destruct (clients s !! d); [|injection Hp as <-; by exists cl].
    destruct (heap s !! d) as [cld|] eqn:Hd; simpl in Hp; [|done].
    unfold Chan.close in Hp. destruct (Chan.closed (send cld)); simpl in Hp; [done|].
    injection Hp as <-. simpl. destruct (decide (c = d)) as [->|Hne].
    + rewrite lookup_insert_eq. eexists. split; [done|].
      assert (cld = cl) as -> by congruence. by simpl.
    + rewrite lookup_insert_ne by done. by exists cl.
  - by eapply range_struct.
  - injection Hp as <-. unfold writePump_recv.
    destruct (heap s !! d) as [cld|] eqn:Hd; [|by exists cl].
    unfold Chan.recv. destruct (Chan.buf (send cld)) as [|m rest] eqn:Hb.
    { destruct (Chan.closed (send cld)); by exists cl. }
    simpl. destruct (decide (c = d)) as [->|Hne].
    + rewrite lookup_insert_eq. eexists. split; [done|].
      assert (cld = cl) as -> by congruence. simpl.
      repeat split. rewrite Hb. simpl. lia.
    + rewrite lookup_insert_ne by done. by exists cl.
Qed.

(** X1.  Along every run of the system a client keeps the username and
    the room it was created with: no hub request and no pump rewrites the
    identity a connection is bound to. *)
Theorem identity_is_immutable s acts s2 c cl :
  run s acts s2 → heap s !! c = Some cl →
  ∃ cl2, heap s2 !! c = Some cl2 ∧
         username cl2 = username cl ∧ room cl2 = room cl.
Proof.
  induction 1 as [|s a s1 acts s2 Ha Hp _ IH] in cl |- *; intros Hh.
  - by exists cl.
  - destruct (perform_struct _ _ _ _ _ Ha Hp Hh) as (cl1 & Hh1 & Hu & Hr & _).
    destruct (IH _ Hh1) as (cl2 & Hh2 & Hu2 & Hr2).
    exists cl2. split; [done|]. split; congruence.
Qed.

Lemma identity_is_immutable_witness :
  ∃ s cl2, run (mkState (<[1%positive := alice]> ∅) ∅)
             [HubStep (Register 1%positive); HubStep (Broadcast hello);
              Recv 1%positive; HubStep (Unregister 1%positive)] s ∧
           heap s !! 1%positive = Some cl2 ∧
           username cl2 = "Alice" ∧ room cl2 = "general".
Proof.
  eexists.
  assert (run (mkState (<[1%positive := alice]> ∅) ∅)
             [HubStep (Register 1%positive); HubStep (Broadcast hello);
              Recv 1%positive; HubStep (Unregister 1%positive)]
             (mkState (<[1%positive := mkClient "Alice" "general"
                                         (Chan.mk [] 256 true)]> ∅) ∅)) as Hrun.
  { run_by_computation. }
  destruct (identity_is_immutable _ _ _ 1%positive alice Hrun)
    as (cl2 & H1 & H2 & H3); [reflexivity|].
  exists cl2. split; [exact Hrun|]. split; [exact H1|]. split; [exact H2|exact H3].
Defined.

(** X2.  In every state reachable from the empty hub, every client's
    queue holds at most 256 messages, the capacity it was made with:
    buffering is bounded. *)
Theorem queues_are_bounded acts s :
  run NewHub acts s → bounded s.
Proof.
  assert (∀ s0 acts0 s1, run s0 acts0 s1 → bounded s0 → bounded s1) as Hgen.
  { induction 1 as [|s0 a s1 acts0 s2 Ha Hp _ IH]; [done|].
    intros Hb. apply IH. intros c cl1 Hh1.
    destruct a as [d u r|rq|d].
    - simpl in Hp. injection Hp as <-. simpl in Hh1.
      destruct (decide (c = d)) as [->|Hne].
      + rewrite lookup_insert_eq in Hh1. injection Hh1 as <-. simpl. split; [lia|done].
      + rewrite lookup_insert_ne in Hh1 by done. by apply (Hb c).
    - assert (is_Some (heap s0 !! c)) as [cl Hh].
      { destruct rq as [e|e|m]; simpl in Hp.
        - injection Hp as <-. by eexists.
        - unfold Hub_unregister in Hp.
          destruct (clients s0 !! e); [|injection Hp as <-; by eexists].
          destruct (heap s0 !! e) as [cle|] eqn:He; simpl in Hp; [|done].
          destruct (Chan.close (send cle)); simpl in Hp; [|done].
          injection Hp as <-. simpl in Hh1. destruct (decide (c = e)) as [->|Hne].
          + by eexists.
          + rewrite lookup_insert_ne in Hh1 by done. by eexists.
        - destruct (heap s0 !! c) as [cl|] eqn:Hh; [by eexists|].
          destruct (clients s0 !! c) as [b|] eqn:Hc.
          + exfalso. destruct (keys_range_order s0) as [Hnd Hin].
            destruct (range_at _ _ _ _ c Hnd (proj2 (Hin c) (ex_intro _ b Hc)) Hp)
              as (sv & Hv & _).
            unfold broadcast_visit in Hv. by rewrite Hc, Hh in Hv.
          + destruct (Hub_broadcast_nonmember _ _ _ c Hp Hc) as [Heq _].
            rewrite Heq, Hh in Hh1. done. }
      destruct (perform_struct _ _ _ _ _ Ha Hp Hh) as (cl' & Hh' & _ & _ & Hc & Hle).
      assert (cl' = cl1) as -> by congruence.
      destruct (Hb c cl Hh) as [Hle0 Hcap]. split; [by apply Hle|congruence].
    - simpl in Hp. injection Hp as <-.
      assert (is_Some (heap s0 !! c)) as [cl Hh].
      { revert Hh1. unfold writePump_recv.
        destruct (heap s0 !! d) as [cld|] eqn:Hd; [|by eexists].
        destruct (Chan.recv (send cld)); [|by eexists..]. simpl.
        destruct (decide (c = d)) as [->|Hne]; [by eexists|].
        rewrite lookup_insert_ne by done. by eexists. }
      destruct (perform_struct (Recv d) _ _ _ _ Ha eq_refl Hh)
        as (cl' & Hh' & _ & _ & Hc & Hle).
      assert (cl' = cl1) as -> by congruence.
      destruct (Hb c cl Hh) as [Hle0 Hcap]. split; [by apply Hle|congruence]. }
  intros Hrun. eapply Hgen; [done|]. intros c cl Hh. simpl in Hh.
  by rewrite lookup_empty in Hh.
Qed.

Lemma queues_are_bounded_witness :
  ∃ s, run NewHub ex_acts s ∧ bounded s.
Proof.
  eexists. split; [unfold ex_acts; run_by_computation|].
  apply (queues_are_bounded ex_acts). unfold ex_acts. run_by_computation.
Defined.

Lemma visit_members message d s s' c :
  broadcast_visit message d s = Some s' →
  is_Some (clients s' !! c) → is_Some (clients s !! c).
Proof.
  intros H. apply visit_inv in H as [->|(cl & b & _ & _ & _ & _ & [[_ ->]|[_ ->]])];
    [done..|].
  simpl. intros [b' Hb]. apply lookup_delete_Some in Hb as [_ Hb]. by eexists.
Qed.

Lemma range_members message order : ∀ s s' c,
  broadcast_range message order s = Some s' →
  is_Some (clients s' !! c) → is_Some (clients s !! c).
Proof.
  induction order as [|d rest IH]; simpl; intros s s' c H Hc.
  - by injection H as <-.
  - destruct (broadcast_visit message d s) as [s1|] eqn:Hv; simpl in H; [|done].
    eapply visit_members; [done|]. by eapply IH.
Qed.

(** X3.  Only a register request adds a client to [clients]: after any
    other move (allocation, unregister, broadcast, a write pump's receive)
    every registered client was registered before. *)
Theorem membership_grows_only_by_register a s s' c :
  perform a s = Some s' → is_Some (clients s' !! c) →
  is_Some (clients s !! c) ∨ a = HubStep (Register c).
Proof.
  intros Hp Hc. destruct a as [d u r|[d|d|m]|d]; simpl in Hp.
  - injection Hp as <-. by left.
  - injection Hp as <-. simpl in Hc. destruct (decide (c = d)) as [->|Hne].
    + by right.
    + rewrite lookup_insert_ne in Hc by done. by left.
  - left. unfold Hub_unregister in Hp.
    destruct (clients s !! d) eqn:Hd; [|by injection Hp as <-].
    destruct (heap s !! d) as [cl|]; simpl in Hp; [|done].
    destruct (Chan.close (send cl)); simpl in Hp; [|done].
    injection Hp as <-. simpl in Hc. destruct Hc as [b' Hb'].
    apply lookup_delete_Some in Hb' as [_ Hb']. by eexists.
  - left. by eapply range_members.
  - left. injection Hp as <-. revert Hc. unfold writePump_recv.
    destruct (heap s !! d) as [cl|]; [|done]. by destruct (Chan.recv (send cl)).
Qed.

Lemma membership_grows_only_by_register_witness :
  (is_Some (clients ex_hub !! 4%positive) ∨
   HubStep (Register 4%positive) = HubStep (Register 4%positive)) ∧
  (is_Some (clients ex_hub !! 1%positive) ∨
   HubStep (Broadcast hello) = HubStep (Register 1%positive)).
Proof.
  split.
  - eapply (membership_grows_only_by_register (HubStep (Register 4%positive))
              ex_hub _ 4%positive); [reflexivity|].
    simpl. rewrite lookup_insert_eq. by eexists.
  - eapply (membership_grows_only_by_register (HubStep (Broadcast hello))
              ex_hub _ 1%positive); [vm_compute; reflexivity|].
    vm_compute. by eexists.
Defined.

(** X4.  A broadcast to a room none of the registered clients is in
    changes nothing: no queue, no registration. *)
Theorem broadcast_to_empty_room message s :
  wf s →
  (∀ c cl, is_Some (clients s !! c) → heap s !! c = Some cl →
           room cl ≠ Room message) →
  Hub_broadcast message s = Some s.
Proof.
  intros Hwf Hrooms. unfold Hub_broadcast.
  induction (keys s) as [|c rest IH]; simpl; [done|].
  assert (broadcast_visit message c s = Some s) as ->; [|done].
  destruct (clients s !! c) as [b|] eqn:Hc; [|by apply visit_absent].
  destruct (proj1 (is_open_Some s c) (Hwf c (ex_intro _ b Hc))) as (cl & Hh & _).
  eapply visit_other_room; [done|]. eapply Hrooms; [by eexists|done].
Qed.

Lemma broadcast_to_empty_room_witness :
  Hub_broadcast (mkMessage "message" "Eve" "anyone?" "lobby" 3%Z) ex_hub =
  Some ex_hub.
Proof.
  apply broadcast_to_empty_room.
  - apply wfb_wf. vm_compute. reflexivity.
  - intros c cl [b Hb] Hh. simpl.
    destruct (decide (c = 1%positive)) as [->|H1];
      [vm_compute in Hh; by injection Hh as <-|].
    destruct (decide (c = 2%positive)) as [->|H2];
      [vm_compute in Hh; by injection Hh as <-|].
    destruct (decide (c = 3%positive)) as [->|H3];
      [vm_compute in Hh; by injection Hh as <-|].
    exfalso. unfold ex_hub in Hb. simpl in Hb.
    rewrite !lookup_insert_ne, lookup_empty in Hb by done. done.
Defined.

Lemma broadcasts_nonmember ms : ∀ s s' c,
  Hub_Run (Broadcast <$> ms) s = Some s' → clients s !! c = None →
  clients s' !! c = None.
Proof.
  induction ms as [|m ms IH]; simpl; intros s s' c H Hc.
  - by injection H as <-.
  - destruct (Hub_broadcast m s) as [s1|] eqn:Hb; simpl in H; [|done].
    eapply IH; [done|]. by eapply Hub_broadcast_nonmember.
Qed.

(** X5.  Broadcasts reach a client in the order the hub handled them: a
    registered client that is still registered after a series of
    broadcasts has got, appended to its queue and in that order, exactly
    the messages of the series addressed to its room; and it is still
    registered whenever its queue had room for all of them. *)
Theorem broadcasts_arrive_in_order ms : ∀ s c b cl,
  wf s → clients s !! c = Some b → heap s !! c = Some cl →
  ∃ s', Hub_Run (Broadcast <$> ms) s = Some s' ∧
    (is_Some (clients s' !! c) →
       heap s' !! c =
         Some (mkClient (username cl) (room cl)
                 (Chan.mk (Chan.buf (send cl) ++ filter (λ m, room cl = Room m) ms)
                          (Chan.cap (send cl)) false))) ∧
    ((length (Chan.buf (send cl)) + length (filter (λ m, room cl = Room m) ms)
        ≤ Chan.cap (send cl))%nat →
       is_Some (clients s' !! c)).
Proof.
  induction ms as [|m ms IH]; intros s c b cl Hwf Hc Hh.
  - exists s. split; [done|]. split; [|by eexists].
    intros _. rewrite Hh. f_equal.
    destruct (proj1 (is_open_Some s c) (Hwf c (ex_intro _ b Hc))) as (cl' & Hh' & Ho).
    assert (cl' = cl) as -> by congruence.
    destruct cl as [u r [bf cp cls]]. simpl in *. subst. unfold with_send. simpl.
    by rewrite app_nil_r.
  - simpl. destruct (Hub_broadcast_wf m s Hwf) as (s1 & Hb & Hwf1). rewrite Hb. simpl.
    destruct (range_member _ _ _ _ _ _ _ Hwf (keys_range_order s) Hb Hc Hh)
      as (Hother & Hsent & Hfull).
    destruct (decide (room cl = Room m)) as [Hr|Hr].
    + rewrite filter_cons, decide_True by done.
      destruct (decide (length (Chan.buf (send cl)) < Chan.cap (send cl))) as [Hl|Hl].
      * destruct (Hsent Hr Hl) as [Hh1 Hc1].
        destruct (IH s1 c b _ Hwf1 Hc1 Hh1) as (s' & Hrun & Hq & Hstay).
        exists s'. split; [done|]. simpl in *. split.
        -- intros Hp. rewrite (Hq Hp). unfold with_send. simpl.
           by rewrite <- app_assoc.
        -- intros Hle. apply Hstay. rewrite length_app. simpl. lia.
      * destruct (Hfull Hr Hl) as [_ Hc1].
        assert (∃ s', Hub_Run (Broadcast <$> ms) s1 = Some s') as [s' Hrun].
        { clear -Hwf1. revert s1 Hwf1. induction ms as [|m' ms IH']; simpl;
            intros s1 Hwf1; [by eexists|].
          destruct (Hub_broadcast_wf m' s1 Hwf1) as (s2 & -> & Hwf2). simpl.
          by apply IH'. }
        exists s'. split; [done|].
        pose proof (broadcasts_nonmember _ _ _ c Hrun Hc1) as Hn. split.
        -- intros [b' Hb']. congruence.
        -- simpl. lia.
    + rewrite filter_cons, decide_False by done.
      destruct (Hother Hr) as [Hh1 Hc1].
      by apply (IH s1 c b cl Hwf1 Hc1 Hh1).
Qed.

Lemma broadcasts_arrive_in_order_witness :
  ∃ s', Hub_Run (Broadcast <$> [hello;
                               mkMessage "message" "Dave" "psst" "random" 8%Z;
                               mkMessage "message" "Bob" "hi" "general" 9%Z]) ex_hub
          = Some s' ∧
        (Chan.buf ∘ send) <$> heap s' !! 1%positive =
          Some [hello; mkMessage "message" "Bob" "hi" "general" 9%Z].
Proof.
  destruct (broadcasts_arrive_in_order
              [hello; mkMessage "message" "Dave" "psst" "random" 8%Z;
               mkMessage "message" "Bob" "hi" "general" 9%Z]
              ex_hub 1%positive true alice) as (s' & Hrun & Hq & Hstay).
  - apply wfb_wf. vm_compute. reflexivity.
  - vm_compute. reflexivity.
  - vm_compute. reflexivity.
  - exists s'. split; [exact Hrun|].
    rewrite Hq; [reflexivity|]. apply Hstay. vm_compute. lia.
Defined.

(** X6.  Once a client has left the hub (unregistered, queue closed),
    nothing is ever queued for it again and it is never registered again:
    whatever the system does afterwards, its queue is a suffix of what it
    held when it left. *)
Theorem left_client_gets_nothing s acts s2 c cl :
  run s acts s2 → gone s c → heap s !! c = Some cl →
  clients s2 !! c = None ∧
  ∃ cl2 k, heap s2 !! c = Some cl2 ∧
           Chan.buf (send cl2) = drop k (Chan.buf (send cl)).
Proof.
  induction 1 as [|s a s1 acts s2 Ha Hp _ IH] in cl |- *; intros Hg Hh.
  - split; [apply Hg|]. by exists cl, 0%nat.
  - pose proof (perform_gone _ _ _ _ Ha Hp Hg) as Hg1.
    assert (∃ cl1 k1, heap s1 !! c = Some cl1 ∧
              Chan.buf (send cl1) = drop k1 (Chan.buf (send cl))) as (cl1 & k1 & Hh1 & Hb1).
    { destruct Hg as [Hc Hcl]. destruct a as [d u r|[d|d|m]|d]; simpl in *.
      - injection Hp as <-. simpl. exists cl, 0%nat.
        rewrite lookup_insert_ne; [done|]. intros ->. by rewrite Ha in Hh.
      - injection Hp as <-. by exists cl, 0%nat.
      - exists cl, 0%nat. split; [|done].
        unfold Hub_unregister in Hp.
        destruct (clients s !! d) eqn:Hd; [|by injection Hp as <-].
        destruct (heap s !! d) as [cld|]; simpl in Hp; [|done].
        destruct (Chan.close (send cld)); simpl in Hp; [|done].
        injection Hp as <-. simpl. rewrite lookup_insert_ne; [done|].
        intros ->. congruence.
      - exists cl, 0%nat. split; [|done].
        destruct (Hub_broadcast_nonmember _ _ _ c Hp Hc) as [-> _]. done.
      - injection Hp as <-. unfold writePump_recv.
        destruct (heap s !! d) as [cld|] eqn:Hd;
          [|by exists cl, 0%nat].
        unfold Chan.recv. destruct (Chan.buf (send cld)) as [|m rest] eqn:Hb.
        { destruct (Chan.closed (send cld)); by exists cl, 0%nat. }
        simpl. destruct (decide (c = d)) as [->|Hne].
        + rewrite lookup_insert_eq. assert (cld = cl) as -> by congruence.
          eexists _, 1%nat. split; [done|]. simpl. by rewrite Hb.
        + rewrite lookup_insert_ne by done. by exists cl, 0%nat. }
    destruct (IH cl1 Hg1 Hh1) as (Hc2 & cl2 & k2 & Hh2 & Hb2).
    split; [done|]. exists cl2, (k1 + k2)%nat. split; [done|].
    by rewrite Hb2, Hb1, drop_drop.
Qed.

Lemma left_client_gets_nothing_witness :
  ∃ s2, run ex_closed [HubStep (Broadcast hello); Recv 5%positive;
                       HubStep (Broadcast hello)] s2 ∧
        clients s2 !! 5%positive = None ∧
        (Chan.buf ∘ send) <$> heap s2 !! 5%positive = Some [hello; hello].
Proof.
  eexists. split; [run_by_computation|].
  split; [|vm_compute; reflexivity].
  refine (proj1 (left_client_gets_nothing ex_closed
                   [HubStep (Broadcast hello); Recv 5%positive;
                    HubStep (Broadcast hello)] _ 5%positive
                   (mkClient "Carol" "general" (Chan.mk [hello; hello; hello] 256 true))
                   _ _ _)).
  - run_by_computation.
  - split; vm_compute; reflexivity.
  - vm_compute. reflexivity.
Defined.

(** X7.  An unregister request touches one client only: every other
    client keeps its struct and its registration, and the client itself
    keeps its identity and the messages already queued (they can still be
    written out by its write pump). *)
Theorem unregister_touches_one_client c s s' :
  Hub_unregister c s = Some s' →
  (∀ d, d ≠ c → heap s' !! d = heap s !! d ∧ clients s' !! d = clients s !! d) ∧
  (∀ cl, heap s !! c = Some cl →
     ∃ cl', heap s' !! c = Some cl' ∧ username cl' = username cl ∧
            room cl' = room cl ∧
            Chan.buf (send cl') = Chan.buf (send cl)).
Proof.
  unfold Hub_unregister. destruct (clients s !! c) as [b|] eqn:Hc.
  - destruct (heap s !! c) as [cl0|] eqn:Hh; simpl; [|done].
    unfold Chan.close. destruct (Chan.closed (send cl0)); simpl; [done|].
    intros [= <-]. simpl. split.
    + intros d Hne. by rewrite lookup_insert_ne, lookup_delete_ne.
    + intros cl [= <-]. rewrite lookup_insert_eq. by eexists.
  - intros [= <-]. split; [done|]. intros cl Hh. by exists cl.
Qed.

Lemma unregister_touches_one_client_witness :
  ∃ s', Hub_unregister 2%positive ex_hub = Some s' ∧
        heap s' !! 1%positive = heap ex_hub !! 1%positive ∧
        clients s' !! 3%positive = clients ex_hub !! 3%positive.
Proof.
  eexists. split; [vm_compute; reflexivity|].
  destruct (unregister_touches_one_client 2%positive ex_hub _ eq_refl) as [Hf _].
  split; [by apply (Hf 1%positive)|by apply (Hf 3%positive)].
Defined.

(** X8.  Registering a client that is not registered and unregistering it
    again gives back the [clients] map as it was; the client's queue ends
    closed, with its content untouched. *)
Theorem register_unregister_round_trip c s cl :
  clients s !! c = None → heap s !! c = Some cl →
  Chan.closed (send cl) = false →
  Hub_Run [Register c; Unregister c] s =
    Some (mkState (<[c := mkClient (username cl) (room cl) (Chan.mk (Chan.buf (send cl))
                                               (Chan.cap (send cl)) true)]> (heap s))
                  (clients s)).
Proof.
  intros Hc Hh Ho. simpl. unfold Hub_unregister, Chan.close. simpl.
  rewrite lookup_insert_eq, Hh. simpl. rewrite Ho. simpl.
  by rewrite delete_insert_eq, delete_id.
Qed.

Lemma register_unregister_round_trip_witness :
  clients <$> Hub_Run [Register 4%positive; Unregister 4%positive]
                (mkState (<[4%positive := alice]> (heap ex_hub)) (clients ex_hub)) =
  Some (clients ex_hub).
Proof.
  rewrite (register_unregister_round_trip 4%positive _ alice); reflexivity.
Defined.

(** ** The write pump *)

Lemma writePump_cons c case write_ok rest s :
  writePump c ((case, write_ok) :: rest) s =
  match writePump_iter c case write_ok s with
  | (s1, out1, Returned) => (s1, out1, Returned)
  | (s1, out1, Running) =>
      match writePump c rest s1 with
      | (s2, out2, st2) => (s2, (out1 ++ out2)%list, st2)
      end
  end.
Proof.
  simpl. destruct (writePump_iter c case write_ok s) as [[s1 out1] [|]]; [|done].
  by destruct (writePump c rest s1) as [[s2 out2] st2].
Qed.

(** One iteration either leaves the queue alone and writes no message, or
    takes the oldest message and writes it. *)
Lemma writePump_iter_cases c case write_ok s cl s1 out1 st1 :
  heap s !! c = Some cl →
  writePump_iter c case write_ok s = (s1, out1, st1) →
  (s1 = s ∧ json_frames out1 = []) ∨
  (∃ m rest, Chan.buf (send cl) = m :: rest ∧ out1 = [WriteJSON m] ∧
             s1 = mkState (<[c := with_send cl (Chan.mk rest (Chan.cap (send cl))
                                                  (Chan.closed (send cl)))]> (heap s))
                          (clients s) ∧
             perform (Recv c) s = Some s1).
Proof.
  intros Hh. destruct case; simpl; [|intros [= <- <- <-]; by left].
  unfold writePump_recv. rewrite Hh. unfold Chan.recv.
  destruct (Chan.buf (send cl)) as [|m rest] eqn:Hb.
  - destruct (Chan.closed (send cl)); intros [= <- <- <-]; by left.
  - intros [= <- <- <-]. right. exists m, rest. repeat split.
Qed.

(** X9.  Whatever cases the select takes and whichever writes fail, the
    write pump writes the queued messages in queue order, each at most
    once and none skipped: the messages written are a prefix of the queue
    and the queue is left with the rest.  It changes nothing else: not
    [clients] (it never unregisters), not the closed flag, not another
    client. *)
Theorem writePump_delivers_prefix c schedule : ∀ s cl s' out st,
  heap s !! c = Some cl → writePump c schedule s = (s', out, st) →
  ∃ k, (k ≤ length (Chan.buf (send cl)))%nat ∧
       json_frames out = take k (Chan.buf (send cl)) ∧
       heap s' !! c =
         Some (mkClient (username cl) (room cl) (Chan.mk (drop k (Chan.buf (send cl)))
                                     (Chan.cap (send cl)) (Chan.closed (send cl)))) ∧
       clients s' = clients s ∧
       ∀ d, d ≠ c → heap s' !! d = heap s !! d.
Proof.
  induction schedule as [|[case ok] rest IH]; intros s cl s' out st Hh H.
  - injection H as <- <- <-. exists 0%nat. split; [lia|]. split; [done|].
    split; [|done]. rewrite Hh. by destruct cl as [u r [bf cp cls]].
  - rewrite writePump_cons in H.
    destruct (writePump_iter c case ok s) as [[s1 out1] st1] eqn:Hi.
    destruct (writePump_iter_cases _ _ _ _ _ _ _ _ Hh Hi)
      as [[-> Hj]|(m & tl & Hb & -> & Hs1 & _)].
    + destruct st1.
      * destruct (writePump c rest s) as [[s2 out2] st2] eqn:Hrec.
        injection H as <- <- <-.
        destruct (IH _ _ _ _ _ Hh Hrec) as (k & Hk & Hjs & Hq & Hc & Hf).
        exists k. unfold json_frames in *. rewrite omap_app, Hj. done.
      * injection H as <- <- <-. exists 0%nat. split; [lia|]. split; [done|].
        split; [|done]. rewrite Hh. by destruct cl as [u r [bf cp cls]].
    + assert (heap s1 !! c =
                Some (with_send cl (Chan.mk tl (Chan.cap (send cl))
                                            (Chan.closed (send cl))))) as Hh1
        by (rewrite Hs1; simpl; by rewrite lookup_insert_eq).
      assert (clients s1 = clients s) as Hc1 by by rewrite Hs1.
      assert (∀ d, d ≠ c → heap s1 !! d = heap s !! d) as Hf1
        by (intros d Hd; rewrite Hs1; simpl; by rewrite lookup_insert_ne).
      clear Hs1. destruct st1.
      * destruct (writePump c rest s1) as [[s2 out2] st2] eqn:Hrec.
        injection H as <- <- <-.
        destruct (IH _ _ _ _ _ Hh1 Hrec) as (k & Hk & Hjs & Hq & Hc & Hf).
        exists (S k). rewrite Hb. simpl in *. split; [lia|].
        split; [by rewrite Hjs|]. split; [done|]. split; [congruence|].
        intros d Hd. rewrite Hf by done. by apply Hf1.
      * injection H as <- <- <-. exists 1%nat. rewrite Hb. simpl. split; [lia|].
        split; [done|]. split; [by rewrite drop_0|]. done.
Qed.

Lemma writePump_delivers_prefix_witness :
  ∃ s' out st,
    writePump 5%positive [(CaseTick, true); (CaseSend, true); (CaseSend, false);
                          (CaseSend, true)] ex_closed = (s', out, st) ∧
    json_frames out = [hello; hello] ∧
    (Chan.buf ∘ send) <$> heap s' !! 5%positive = Some [hello].
Proof.
  do 3 eexists. split; [vm_compute; reflexivity|].
  destruct (writePump_delivers_prefix 5%positive
              [(CaseTick, true); (CaseSend, true); (CaseSend, false); (CaseSend, true)]
              ex_closed
              (mkClient "Carol" "general" (Chan.mk [hello; hello; hello] 256 true))
              _ _ _ eq_refl eq_refl) as (k & _ & Hj & Hq & _).
  split; [reflexivity|]. reflexivity.
Defined.

(** X10.  The state a write pump leaves is the state after as many
    receive moves of the system as it wrote messages: the pump does to the
    hub's memory nothing but receive from its own queue. *)
Theorem writePump_is_receives c schedule : ∀ s cl s' out st,
  heap s !! c = Some cl → writePump c schedule s = (s', out, st) →
  run s (replicate (length (json_frames out)) (Recv c)) s'.
Proof.
  induction schedule as [|[case ok] rest IH]; intros s cl s' out st Hh H.
  - injection H as <- <- <-. apply run_nil.
  - rewrite writePump_cons in H.
    destruct (writePump_iter c case ok s) as [[s1 out1] st1] eqn:Hi.
    destruct (writePump_iter_cases _ _ _ _ _ _ _ _ Hh Hi)
      as [[-> Hj]|(m & tl & Hb & -> & Hs1 & Hp)].
    + destruct st1.
      * destruct (writePump c rest s) as [[s2 out2] st2] eqn:Hrec.
        injection H as <- <- <-. unfold json_frames in *.
        rewrite omap_app, Hj. simpl. by eapply IH.
      * injection H as <- <- <-. rewrite Hj. apply run_nil.
    + assert (∃ cl1, heap s1 !! c = Some cl1) as [cl1 Hh1].
      { rewrite Hs1. simpl. rewrite lookup_insert_eq. by eexists. }
      destruct st1.
      * destruct (writePump c rest s1) as [[s2 out2] st2] eqn:Hrec.
        injection H as <- <- <-. simpl.
        eapply run_cons; [done|done|]. by eapply IH.
      * injection H as <- <- <-. simpl.
        eapply run_cons; [done|done|apply run_nil].
Qed.

Lemma writePump_is_receives_witness :
  ∃ s', run ex_closed [Recv 5%positive; Recv 5%positive] s' ∧
        (writePump 5%positive [(CaseTick, true); (CaseSend, true); (CaseSend, false);
                               (CaseSend, true)] ex_closed).1.1 = s'.
Proof.
  eexists. split; [|reflexivity].
  exact (writePump_is_receives 5%positive
           [(CaseTick, true); (CaseSend, true); (CaseSend, false); (CaseSend, true)]
           ex_closed
           (mkClient "Carol" "general" (Chan.mk [hello; hello; hello] 256 true))
           _ _ _ eq_refl eq_refl).
Defined.

Lemma writePump_app c pre : ∀ post s,
  writePump c (pre ++ post) s =
  match writePump c pre s with
  | (s1, out1, Returned) => (s1, out1, Returned)
  | (s1, out1, Running) =>
      match writePump c post s1 with
      | (s2, out2, st2) => (s2, (out1 ++ out2)%list, st2)
      end
  end.
Proof.
  induction pre as [|[case ok] pre IH]; intros post s.
  - simpl. by destruct (writePump c post s) as [[s2 out2] st2].
  - rewrite <- app_comm_cons, !writePump_cons.
    destruct (writePump_iter c case ok s) as [[s1 out1] [|]]; [|done].
    rewrite IH. destruct (writePump c pre s1) as [[s2 out2] [|]]; [|done].
    destruct (writePump c post s2) as [[s3 out3] st3]. by rewrite app_assoc.
Qed.

(** X11.  A failed write ends the write pump: when the ping of a tick
    fails nothing more is written, the queue is as it was and later events
    are ignored; when the write of a queued message fails the pump ends
    the same way, and the message has been taken off the queue. *)
Theorem writePump_stops_on_failed_write c pre post s s1 out1 :
  writePump c pre s = (s1, out1, Running) →
  writePump c (pre ++ (CaseTick, false) :: post) s =
    (s1, (out1 ++ [PingMessage])%list, Returned) ∧
  (∀ cl m rest, heap s1 !! c = Some cl → Chan.buf (send cl) = m :: rest →
     writePump c (pre ++ (CaseSend, false) :: post) s =
       (mkState (<[c := mkClient (username cl) (room cl) (Chan.mk rest (Chan.cap (send cl))
                                        (Chan.closed (send cl)))]> (heap s1))
                (clients s1),
        (out1 ++ [WriteJSON m])%list, Returned)).
Proof.
  intros Hpre. split.
  - by rewrite writePump_app, Hpre, writePump_cons.
  - intros cl m rest Hh Hb. rewrite writePump_app, Hpre, writePump_cons.
    simpl. unfold writePump_recv. rewrite Hh. unfold Chan.recv. by rewrite Hb.
Qed.

Lemma writePump_stops_on_failed_write_witness :
  writePump 5%positive [(CaseSend, true); (CaseTick, false); (CaseSend, true)]
    ex_closed =
  ((writePump 5%positive [(CaseSend, true)] ex_closed).1.1,
   [WriteJSON hello; PingMessage], Returned).
Proof.
  exact (proj1 (writePump_stops_on_failed_write 5%positive [(CaseSend, true)]
                  [(CaseSend, true)] ex_closed _ [WriteJSON hello] eq_refl)).
Defined.

(** On a closed queue, with every write succeeding and the send case
    taken more often than there are queued messages, the pump writes the
    queue and then the close frame, and returns. *)
Lemma writePump_flush_closed c schedule : ∀ s cl s' out st,
  heap s !! c = Some cl → Chan.closed (send cl) = true →
  Forall (λ e, e.2 = true) schedule →
  (length (Chan.buf (send cl)) < length (filter (λ e, e.1 = CaseSend) schedule))%nat →
  writePump c schedule s = (s', out, st) →
  st = Returned ∧
  ∃ pre, out = (pre ++ [CloseMessage])%list ∧
         json_frames pre = Chan.buf (send cl) ∧
         Forall (λ w, w ≠ CloseMessage) pre.
Proof.
  induction schedule as [|[case ok] rest IH]; intros s cl s' out st Hh Hcl Hok Hlen H.
  - simpl in Hlen. lia.
  - apply Forall_cons in Hok as [Hok1 Hok]. simpl in Hok1. subst ok.
    rewrite writePump_cons in H. rewrite filter_cons in Hlen. simpl in Hlen.
    destruct case.
    + rewrite decide_True in Hlen by done. simpl in Hlen, H.
      unfold writePump_recv in H. rewrite Hh in H. unfold Chan.recv in H.
      destruct (Chan.buf (send cl)) as [|m tl] eqn:Hb.
      * rewrite Hcl in H. injection H as <- <- <-. split; [done|].
        exists []. by repeat split.
      * destruct (writePump c rest _) as [[s2 out2] st2] eqn:Hrec.
        injection H as <- <- <-.
        eapply IH in Hrec;
          [|simpl; apply lookup_insert_eq|exact Hcl|exact Hok|simpl in *; lia].
        destruct Hrec as (-> & pre & -> & Hj & Hnc).
        split; [done|]. exists (WriteJSON m :: pre). repeat split.
        -- simpl in *. by rewrite Hj.
        -- apply Forall_cons. by split.
    + rewrite decide_False in Hlen by done. simpl in H.
      destruct (writePump c rest s) as [[s2 out2] st2] eqn:Hrec.
      injection H as <- <- <-.
      destruct (IH _ _ _ _ _ Hh Hcl Hok Hlen Hrec) as (-> & pre & -> & Hj & Hnc).
      split; [done|]. exists (PingMessage :: pre). repeat split; [done|].
      apply Forall_cons. by split.
Qed.

(** What a hub request that removes a client leaves of its struct. *)
Lemma hub_step_removed rq s s' c cl :
  wf s → Hub_Run_step rq s = Some s' →
  is_Some (clients s !! c) → clients s' !! c = None → heap s !! c = Some cl →
  heap s' !! c = Some (with_send cl (Chan.mk (Chan.buf (send cl))
                                            (Chan.cap (send cl)) true)).
Proof.
  intros Hwf Hstep [b Hc] Hgone Hh. destruct rq as [d|d|m]; simpl in Hstep.
  - injection Hstep as <-. simpl in Hgone.
    destruct (decide (c = d)) as [->|Hne].
    + by rewrite lookup_insert_eq in Hgone.
    + rewrite lookup_insert_ne in Hgone by done. congruence.
  - destruct (decide (c = d)) as [->|Hne].
    + destruct (unregister_present d s b Hwf Hc) as (cl' & Hh' & _ & Hun).
      assert (cl' = cl) as -> by congruence.
      rewrite Hun in Hstep. injection Hstep as <-. simpl. by rewrite lookup_insert_eq.
    + exfalso. unfold Hub_unregister in Hstep.
      destruct (clients s !! d); [|injection Hstep as <-; congruence].
      destruct (heap s !! d) as [cld|]; simpl in Hstep; [|done].
      destruct (Chan.close (send cld)); simpl in Hstep; [|done].
      injection Hstep as <-. simpl in Hgone.
      rewrite lookup_delete_ne in Hgone by done. congruence.
  - destruct (range_member _ _ _ _ _ _ _ Hwf (keys_range_order s) Hstep Hc Hh)
      as (Hother & Hsent & Hfull).
    destruct (decide (room cl = Room m)) as [Hr|Hr];
      [|destruct (Hother Hr); congruence].
    destruct (decide (length (Chan.buf (send cl)) < Chan.cap (send cl))) as [Hl|Hl];
      [destruct (Hsent Hr Hl); congruence|].
    by destruct (Hfull Hr Hl).
Qed.

(** X12.  However the hub removed a client, by an unregister request or
    by evicting it in a broadcast, the client's write pump, as long as its
    writes succeed, then writes exactly the messages that were queued
    before the removal, in order, followed by one close frame, and
    returns.  The message whose broadcast evicted the client is not among
    them. *)
Theorem removed_client_is_flushed_and_closed rq s s' c cl schedule s'' out st :
  wf s → Hub_Run_step rq s = Some s' →
  is_Some (clients s !! c) → clients s' !! c = None → heap s !! c = Some cl →
  Forall (λ e, e.2 = true) schedule →
  (length (Chan.buf (send cl)) < length (filter (λ e, e.1 = CaseSend) schedule))%nat →
  writePump c schedule s' = (s'', out, st) →
  st = Returned ∧
  ∃ pre, out = (pre ++ [CloseMessage])%list ∧
         json_frames pre = Chan.buf (send cl) ∧
         Forall (λ w, w ≠ CloseMessage) pre.
Proof.
  intros Hwf Hstep Hc Hgone Hh Hok Hlen H.
  pose proof (hub_step_removed _ _ _ _ _ Hwf Hstep Hc Hgone Hh) as Hh'.
  by apply (writePump_flush_closed c schedule s' _ s'' out st Hh').
Qed.

Lemma removed_client_is_flushed_and_closed_witness :
  Returned = Returned ∧
  ∃ pre, [WriteJSON hello; PingMessage; CloseMessage] = (pre ++ [CloseMessage])%list ∧
         json_frames pre = [hello] ∧
         Forall (λ w, w ≠ CloseMessage) pre.
Proof.
  eapply (removed_client_is_flushed_and_closed (Unregister 1%positive) ex_one _
            1%positive (with_send alice (Chan.mk [hello] 256 false))
            [(CaseSend, true); (CaseTick, true); (CaseSend, true)]).
  - apply wfb_wf. vm_compute. reflexivity.
  - vm_compute. reflexivity.
  - exists true. vm_compute. reflexivity.
  - vm_compute. reflexivity.
  - vm_compute. reflexivity.
  - repeat constructor.
  - vm_compute. lia.
  - vm_compute. reflexivity.
Defined.

(** ** The read pump and the hub together *)

Lemma reachable_step s a s' :
  reachable s → admissible s a → perform a s = Some s' → reachable s'.
Proof.
  intros [acts Hrun] Ha Hp. exists (acts ++ [a])%list.
  eapply run_app; [done|]. eapply run_cons; [done|done|apply run_nil].
Qed.

Section ReadPumpAndHub.

Variable json_Unmarshal : list Byte.byte → Message → option Message.

(** X13.  The requests of a read pump have one shape: broadcasts that all
    carry the connection's own username and room, then, exactly when a
    read failed, one unregister of the connection as the last request,
    with the pump exited; reads that follow the failed one are never
    looked at. *)
Theorem readPump_output_shape c cl reads :
  (∃ bs, Forall (λ b, Username b = username cl ∧ Room b = room cl) bs ∧
     (((ReadErr ∈ reads) ∧
       readPump json_Unmarshal c cl reads =
         (((Broadcast <$> bs) ++ [Unregister c])%list, Exited)) ∨
      ((ReadErr ∉ reads) ∧
       readPump json_Unmarshal c cl reads = (Broadcast <$> bs, Reading)))) ∧
  (∀ before after,
     readPump json_Unmarshal c cl (before ++ ReadErr :: after)%list =
     readPump json_Unmarshal c cl (before ++ [ReadErr])%list).
Proof.
  split.
  - induction reads as [|[data now|] rest IH].
    + exists []. split; [done|]. right. split; [apply not_elem_of_nil|done].
    + destruct IH as (bs & Hbs & Hcase). simpl.
      destruct (json_Unmarshal data zeroMessage) as [msg|].
      * exists (stamp cl now msg :: bs). split; [by apply Forall_cons|].
        destruct Hcase as [[Hin ->]|[Hout ->]].
        -- left. split; [by right|done].
        -- right. split; [|done]. intros [?|?]%elem_of_cons; done.
      * exists bs. split; [done|].
        destruct Hcase as [[Hin ->]|[Hout ->]].
        -- left. split; [by right|done].
        -- right. split; [|done]. intros [?|?]%elem_of_cons; done.
    + exists []. split; [done|]. left. split; [by left|done].
  - induction before as [|[data now|] before IH]; intros after; simpl; [done| |done].
    rewrite IH. done.
Qed.

(** X14.  When the read of a registered connection fails, the hub, having
    handled everything the pump handed over, has the connection
    unregistered and its queue closed, and no request panicked; this
    holds also when a broadcast of the connection's own messages had
    evicted it before. *)
Theorem read_error_unregisters c cl reads : ∀ s,
  wf s → is_Some (clients s !! c) ∨ gone s c → ReadErr ∈ reads →
  ∃ s', Hub_Run (readPump json_Unmarshal c cl reads).1 s = Some s' ∧
        wf s' ∧ gone s' c.
Proof.
  induction reads as [|[data now|] rest IH]; intros s Hwf HP Hin.
  - by apply not_elem_of_nil in Hin.
  - apply elem_of_cons in Hin as [?|Hin]; [done|]. simpl.
    destruct (json_Unmarshal data zeroMessage) as [msg|]; [|by apply IH].
    destruct (readPump json_Unmarshal c cl rest) as [out st] eqn:Hrec. simpl.
    destruct (Hub_broadcast_wf (stamp cl now msg) s Hwf) as (s1 & Hb & Hwf1).
    rewrite Hb. simpl.
    simpl in IH. apply IH; [done| |done].
    destruct HP as [Hreg|Hg].
    + destruct (clients s1 !! c) as [b1|] eqn:Hc1; [left; by eexists|].
      right. split; [done|].
      by apply (hub_step_close_iff_remove (Broadcast (stamp cl now msg)) s s1 c Hwf Hb).
    + right. by apply (perform_gone (HubStep (Broadcast (stamp cl now msg))) s s1 c I Hb).
  - simpl. destruct (Hub_unregister_wf c s Hwf) as (s' & Hun & Hwf').
    rewrite Hun. simpl. exists s'. split; [done|]. split; [done|].
    destruct HP as [Hreg|Hg].
    + split; [by eapply unregister_result_absent|].
      apply (hub_step_close_iff_remove (Unregister c) s s' c Hwf Hun).
      split; [done|]. by eapply unregister_result_absent.
    + by apply (perform_gone (HubStep (Unregister c)) s s' c I Hun).
Qed.


(** X16.  The hub never panics on what the program sends it: from a
    reachable state, the requests of a connection handler for a newly
    allocated client, and the requests of a read pump over any reads, are
    all handled, and lead to reachable states. *)
Theorem program_requests_never_panic s :
  reachable s →
  (∀ query client now, heap s !! client = None →
     ∃ s', connect query true client now s = Some s' ∧ reachable s') ∧
  (∀ c cl reads,
     ∃ s', Hub_Run (readPump json_Unmarshal c cl reads).1 s = Some s' ∧
           reachable s').
Proof.
  intros Hreach. split.
  - intros query client now Hfresh. unfold connect, handleWebSocket.
    destruct (resolve_identity query) as [U R].
    set (s1 := mkState (<[client := mkClient U R (Chan.make 256)]> (heap s)) (clients s)).
    assert (reachable s1) as Hr1
      by exact (reachable_step s (NewClient client U R) s1 Hreach Hfresh eq_refl).
    set (s2 := mkState (heap s1) (<[client := true]> (clients s1))).
    assert (reachable s2) as Hr2.
    { apply (reachable_step s1 (HubStep (Register client)) s2 Hr1); [|done].
      simpl. unfold is_open. simpl. by rewrite lookup_insert_eq. }
    destruct (Hub_broadcast_wf (joinMsg U R now) s2 (reachable_wf _ Hr2))
      as (s' & Hb & _).
    exists s'. split.
    + change (Hub_broadcast (joinMsg U R now) s2 ≫= (λ s3, Some s3) = Some s').
      by rewrite Hb.
    + by apply (reachable_step s2 (HubStep (Broadcast (joinMsg U R now))) s' Hr2 I).
  - intros c cl reads. revert s Hreach.
    induction reads as [|[data now|] rest IH]; intros s Hreach; simpl.
    + by exists s.
    + destruct (json_Unmarshal data zeroMessage) as [msg|]; [|by apply IH].
      destruct (readPump json_Unmarshal c cl rest) as [out st] eqn:Hrec. simpl.
      destruct (Hub_broadcast_wf (stamp cl now msg) s (reachable_wf _ Hreach))
        as (s1 & Hb & _).
      rewrite Hb. simpl.
      assert (reachable s1) as Hr1
        by exact (reachable_step s (HubStep (Broadcast (stamp cl now msg))) s1 Hreach I Hb).
      simpl in IH. by apply IH.
    + destruct (Hub_unregister_wf c s (reachable_wf _ Hreach)) as (s1 & Hun & _).
      rewrite Hun. simpl. exists s1. split; [done|].
      by apply (reachable_step s (HubStep (Unregister c)) s1 Hreach I Hun).
Qed.

End ReadPumpAndHub.

Lemma readPump_output_shape_witness :
  readPump ex_Unmarshal 1%positive alice
    [Frame [Byte.x02] 5%Z; ReadErr; Frame [Byte.x01] 6%Z] =
  readPump ex_Unmarshal 1%positive alice [Frame [Byte.x02] 5%Z; ReadErr].
Proof.
  exact (proj2 (readPump_output_shape ex_Unmarshal 1%positive alice [])
           [Frame [Byte.x02] 5%Z] [Frame [Byte.x01] 6%Z]).
Defined.

Lemma read_error_unregisters_witness :
  ∃ s', Hub_Run (readPump ex_Unmarshal 2%positive
                   (mkClient "Bob" "general" (Chan.make 256))
                   [Frame [Byte.x01] 5%Z; ReadErr]).1 ex_hub = Some s' ∧
        wf s' ∧ gone s' 2%positive.
Proof.
  apply (read_error_unregisters ex_Unmarshal 2%positive).
  - apply wfb_wf. vm_compute. reflexivity.
  - left. exists true. vm_compute. reflexivity.
  - right. left.
Defined.


Lemma program_requests_never_panic_witness :
  ∃ s', connect (<["username" := ["Carol"]]> ∅) true 4%positive 9%Z NewHub = Some s' ∧
        reachable s'.
Proof.
  apply (proj1 (program_requests_never_panic ex_Unmarshal NewHub
                  (ex_intro _ [] (run_nil NewHub)))).
  vm_compute. reflexivity.
Defined.

(** ** The HTTP handlers *)

(** X17.  A preflight request is answered by the middleware itself: for
    an OPTIONS request on a writer nothing was written to, the wrapped
    handler is not run (the handler's memory is as before and the result
    does not depend on the handler), the status is 200, the three
    Access-Control headers went out and the body is untouched. *)
Theorem cors_preflight_short_circuits {Σ : Type} (next : HandlerFunc Σ) w r σ :
  Method r = "OPTIONS" → status w = None →
  ∃ w', corsMiddleware next w r σ = (w', σ) ∧
        (∀ next' : HandlerFunc Σ, corsMiddleware next' w r σ = (w', σ)) ∧
        status w' = Some 200%nat ∧
        sentHeader w' !! "Access-Control-Allow-Origin" = Some ["*"] ∧
        sentHeader w' !! "Access-Control-Allow-Methods" = Some ["GET, POST, OPTIONS"] ∧
        sentHeader w' !! "Access-Control-Allow-Headers" = Some ["Content-Type"] ∧
        body w' = body w.
Proof.
  intros Hm Hs. unfold corsMiddleware. rewrite decide_True by done.
  eexists. split; [done|]. split; [intros next'; by rewrite decide_True|].
  unfold WriteHeader, Header_Set. simpl. rewrite Hs. simpl.
  repeat split; by simplify_map_eq.
Qed.

Lemma cors_preflight_short_circuits_witness :
  ∃ w', corsMiddleware (handleHealth "2026-01-01T00:00:00Z") fresh_writer
          (mkRequest "OPTIONS") ex_hub = (w', ex_hub) ∧
        status w' = Some 200%nat ∧ body w' = [].
Proof.
  destruct (cors_preflight_short_circuits
              (handleHealth (Σ := State) "2026-01-01T00:00:00Z") fresh_writer
              (mkRequest "OPTIONS") ex_hub eq_refl eq_refl)
    as (w' & H & _ & Hs & _ & _ & _ & Hb).
  exists w'. split; [exact H|]. split; [exact Hs|exact Hb].
Defined.

(** X18.  The health route, wrapped in the middleware as [main] installs
    it, answers every request that is not OPTIONS, whatever its method, on
    a writer nothing was written to, with status 200, content type
    application/json and the three Access-Control headers, and leaves the
    memory passed through as it was.  The body sent is one JSON object
    with "status" "healthy" and "time" the formatted clock, except for a
    HEAD request, whose response carries no body. *)
Theorem health_response {Σ : Type} now w r (σ : Σ) :
  Method r ≠ "OPTIONS" → status w = None →
  ∃ w', corsMiddleware (handleHealth now) w r σ = (w', σ) ∧
        status w' = Some 200%nat ∧
        sentHeader w' !! "Content-Type" = Some ["application/json"] ∧
        sentHeader w' !! "Access-Control-Allow-Origin" = Some ["*"] ∧
        sentHeader w' !! "Access-Control-Allow-Methods" = Some ["GET, POST, OPTIONS"] ∧
        sentHeader w' !! "Access-Control-Allow-Headers" = Some ["Content-Type"] ∧
        (Method r ≠ "HEAD" →
         body w' = (body w ++ [[("status", "healthy"); ("time", now)]])%list) ∧
        (Method r = "HEAD" → body w' = body w).
Proof.
  intros Hm Hs. unfold corsMiddleware. rewrite decide_False by done.
  eexists. split; [done|].
  unfold handleHealth, Encode, WriteHeader, Header_Set. simpl. rewrite Hs. simpl.
  do 5 (split; [by simplify_map_eq|]). split.
  - intros Hh. by rewrite bool_decide_eq_false_2.
  - intros Hh. by rewrite bool_decide_eq_true_2.
Qed.

Lemma health_response_witness :
  (∃ w', corsMiddleware (handleHealth "2026-01-01T00:00:00Z") fresh_writer
           (mkRequest "GET") NewHub = (w', NewHub) ∧
         status w' = Some 200%nat ∧
         body w' = [[("status", "healthy"); ("time", "2026-01-01T00:00:00Z")]]) ∧
  (∃ w', corsMiddleware (handleHealth "2026-01-01T00:00:00Z") fresh_writer
           (mkRequest "HEAD") NewHub = (w', NewHub) ∧
         status w' = Some 200%nat ∧ body w' = []).
Proof.
  split.
  - destruct (health_response (Σ := State) "2026-01-01T00:00:00Z" fresh_writer
                (mkRequest "GET") NewHub)
      as (w' & H & Hs & _ & _ & _ & _ & Hb & _); [done|done|].
    exists w'. split; [exact H|]. split; [exact Hs|]. by apply Hb.
  - destruct (health_response (Σ := State) "2026-01-01T00:00:00Z" fresh_writer
                (mkRequest "HEAD") NewHub)
      as (w' & H & Hs & _ & _ & _ & _ & _ & Hb); [done|done|].
    exists w'. split; [exact H|]. split; [exact Hs|]. by apply Hb.
Defined.

(** ** The join announcement *)

Lemma exec_run acts : ∀ s s', exec acts s = Some s' → run s acts s'.
Proof.
  induction acts as [|a rest IH]; simpl; intros s s' H.
  - injection H as <-. apply run_nil.
  - destruct (admissibleb s a) eqn:Ha; [|done].
    destruct (perform a s) as [s1|] eqn:Hp; simpl in H; [|done].
    eapply run_cons; [|done|by apply IH].
    destruct a as [c u r|[c|c|m]|c]; simpl in *; try done.
    by destruct (heap s !! c).
Qed.

Lemma run_keeps_room s acts s2 c cl :
  run s acts s2 → heap s !! c = Some cl →
  ∃ cl2, heap s2 !! c = Some cl2 ∧ room cl2 = room cl.
Proof.
  induction 1 as [|s a s1 acts s2 Ha Hp _ IH] in cl |- *; intros Hh.
  - by exists cl.
  - destruct (perform_struct _ _ _ _ _ Ha Hp Hh) as (cl1 & Hh1 & _ & Hr & _).
    destruct (IH _ Hh1) as (cl2 & Hh2 & Hr2).
    exists cl2. split; [done|]. congruence.
Qed.

(** C7, counterexample.  The join message does not reach every member of
    the room.  First, the handler's allocation and its two requests for
    Carol on the empty hub, as the code sends them.  Then: a registered
    member of the room whose queue is full (Bob in [ex_hub]) does not get
    the message appended, the join broadcast evicts it; and the joiner
    itself does not get it when the hub handles 256 broadcasts to its room
    between its register request and its join broadcast, which are two
    separate sends. *)
Lemma join_can_miss_members :
  handleWebSocket ex_query true 4%positive 9%Z NewHub =
    (mkState (<[4%positive := mkClient "Carol" "general" (Chan.make 256)]> ∅) ∅,
     [Register 4%positive; Broadcast ex_join]) ∧
  ¬ (∀ s', connect ex_query true 4%positive 9%Z ex_hub = Some s' →
       ∀ c cl, is_Some (clients ex_hub !! c) → heap ex_hub !! c = Some cl →
               room cl = "general" →
         ∃ cl', heap s' !! c = Some cl' ∧
                Chan.buf (send cl') = (Chan.buf (send cl) ++ [ex_join])%list) ∧
  ¬ (∀ mid s',
       run NewHub ([NewClient 4%positive "Carol" "general";
                    HubStep (Register 4%positive)] ++ mid ++
                   [HubStep (Broadcast ex_join)])%list s' →
       ∃ cl', heap s' !! 4%positive = Some cl' ∧ ex_join ∈ Chan.buf (send cl')).
Proof.
  split; [reflexivity|]. split.
  - intros H.
    assert (∃ s', connect ex_query true 4%positive 9%Z ex_hub = Some s' ∧
                  (Chan.buf ∘ send) <$> heap s' !! 2%positive =
                    Some (replicate 256 hello)) as (s' & Hc & Hb)
      by (eexists; split; vm_compute; reflexivity).
    destruct (H s' Hc 2%positive
                (mkClient "Bob" "general" (Chan.mk (replicate 256 hello) 256 false)))
      as (cl' & Hh & Hbuf); [exists true; vm_compute; reflexivity|
                             vm_compute; reflexivity|reflexivity|].
    rewrite Hh in Hb.
    change (Some (Chan.buf (send cl')) = Some (replicate 256 hello)) in Hb.
    apply (inj Some) in Hb.
    assert (length (Chan.buf (send cl')) = 256%nat) as Hlen
      by (rewrite Hb; apply length_replicate).
    rewrite Hbuf, length_app in Hlen. vm_compute in Hlen. lia.
  - intros H.
    assert (∃ s', run NewHub ([NewClient 4%positive "Carol" "general";
                               HubStep (Register 4%positive)] ++
                              replicate 256 (HubStep (Broadcast hello)) ++
                              [HubStep (Broadcast ex_join)])%list s' ∧
                  (Chan.buf ∘ send) <$> heap s' !! 4%positive =
                    Some (replicate 256 hello)) as (s' & Hrun & Hb)
      by (eexists; split; [apply exec_run|]; vm_compute; reflexivity).
    destruct (H _ _ Hrun) as (cl' & Hh & Hin).
    rewrite Hh in Hb.
    change (Some (Chan.buf (send cl')) = Some (replicate 256 hello)) in Hb.
    apply (inj Some) in Hb. rewrite Hb in Hin.
    apply elem_of_replicate in Hin as [Heq _]. discriminate Heq.
Qed.

(** C7, amended.  For a new connection whose identity resolves to (U, R),
    on a well-formed hub: [handleWebSocket] allocates the client with an
    empty queue of capacity 256 and hands the hub a register request
    followed by a broadcast of the message with type "join", username U,
    content U followed by " joined the room", room R and the current
    time.  Whatever the system does between the two, when the hub handles
    the join broadcast it does not panic, every registered client of room
    R whose queue has room stays registered and gets the message appended,
    every registered client of room R whose queue is full is unregistered
    and closed without it, every client of room R registered afterwards
    has the message as the newest element of its queue, and the joiner is
    still in room R.  When the hub handles the two requests one after the
    other, the joiner ends registered with exactly that message in its
    queue. *)
Theorem join_reaches_members_with_room query client now s U R :
  wf s → heap s !! client = None → resolve_identity query = (U, R) →
  let J := mkMessage "join" U (U +:+ " joined the room") R now in
  ∃ s1 s2,
    handleWebSocket query true client now s =
      (s1, [Register client; Broadcast J]) ∧
    s1 = mkState (<[client := mkClient U R (Chan.make 256)]> (heap s)) (clients s) ∧
    Hub_Run_step (Register client) s1 = Some s2 ∧
    (∀ mid s3, run s2 mid s3 →
       ∃ s', Hub_Run_step (Broadcast J) s3 = Some s' ∧
         (∀ c cl, is_Some (clients s3 !! c) → heap s3 !! c = Some cl → room cl = R →
            (length (Chan.buf (send cl)) < Chan.cap (send cl) →
               is_Some (clients s' !! c) ∧
               ∃ cl', heap s' !! c = Some cl' ∧
                      Chan.buf (send cl') = (Chan.buf (send cl) ++ [J])%list ∧
                      Chan.closed (send cl') = false) ∧
            (¬ length (Chan.buf (send cl)) < Chan.cap (send cl) →
               clients s' !! c = None ∧
               ∃ cl', heap s' !! c = Some cl' ∧
                      Chan.buf (send cl') = Chan.buf (send cl) ∧
                      Chan.closed (send cl') = true)) ∧
         (∀ c cl', is_Some (clients s' !! c) → heap s' !! c = Some cl' →
                   room cl' = R → last (Chan.buf (send cl')) = Some J) ∧
         (∃ cl, heap s3 !! client = Some cl ∧ room cl = R)) ∧
    ∃ s', connect query true client now s = Some s' ∧
          Hub_Run_step (Broadcast J) s2 = Some s' ∧
          clients s' !! client = Some true ∧
          heap s' !! client = Some (mkClient U R (Chan.mk [J] 256 false)).
Proof.
  intros Hwf Hfresh Hid J.
  set (cl0 := mkClient U R (Chan.make 256)).
  set (s1 := mkState (<[client := cl0]> (heap s)) (clients s)).
  set (s2 := mkState (heap s1) (<[client := true]> (clients s1))).
  assert (wf s1) as Hwf1.
  { destruct (perform_wf (NewClient client U R) s Hwf Hfresh) as (s1' & Hp & Hw).
    by injection Hp as <-. }
  assert (wf s2) as Hwf2.
  { assert (admissible s1 (HubStep (Register client))) as Ha.
    { simpl. unfold is_open. simpl. by rewrite lookup_insert_eq. }
    destruct (perform_wf _ s1 Hwf1 Ha) as (s2' & Hp & Hw).
    by injection Hp as <-. }
  assert (heap s2 !! client = Some cl0) as Hh2 by (simpl; by rewrite lookup_insert_eq).
  assert (clients s2 !! client = Some true) as Hc2
    by (simpl; by rewrite lookup_insert_eq).
  exists s1, s2.
  split; [unfold handleWebSocket; by rewrite Hid|].
  split; [done|]. split; [done|]. split.
  - intros mid s3 Hrun.
    pose proof (run_wf _ _ _ Hrun Hwf2) as Hwf3.
    destruct (Hub_broadcast_wf J s3 Hwf3) as (s' & Hb & _).
    pose proof (keys_range_order s3) as Hord.
    exists s'. split; [done|]. split; [|split].
    + intros c cl [b Hc] Hh Hr.
      destruct (range_member _ _ _ _ _ _ _ Hwf3 Hord Hb Hc Hh) as (_ & Hsent & Hfull).
      split; intros Hl.
      * destruct (Hsent Hr Hl) as [Hh' Hc']. split; [by eexists|].
        eexists. split; [done|]. done.
      * destruct (Hfull Hr Hl) as [Hh' Hc']. split; [done|].
        eexists. split; [done|]. done.
    + intros c cl' [b Hc] Hh Hr.
      destruct (clients s3 !! c) as [b3|] eqn:Hc0.
      * destruct (proj1 (is_open_Some s3 c) (Hwf3 c (ex_intro _ b3 Hc0)))
          as (cl3 & Hhc & _).
        destruct (range_member _ _ _ _ _ _ _ Hwf3 Hord Hb Hc0 Hhc)
          as (Hother & Hsnt & Hfull).
        destruct (decide (room cl3 = Room J)) as [Hr3|Hr3].
        -- destruct (decide (length (Chan.buf (send cl3)) < Chan.cap (send cl3)))
             as [Hl|Hl].
           ++ destruct (Hsnt Hr3 Hl) as [Hhs _]. rewrite Hhs in Hh.
              injection Hh as <-. simpl. apply last_snoc.
           ++ destruct (Hfull Hr3 Hl) as [_ Hgone]. congruence.
        -- destruct (Hother Hr3) as [Hhs _]. rewrite Hhs in Hh.
           injection Hh as <-. done.
      * destruct (range_nonmember _ _ _ _ c Hord Hb Hc0) as [_ Hn]. congruence.
    + destruct (run_keeps_room _ _ _ client cl0 Hrun Hh2) as (cl & Hh & Hr).
      by exists cl.
  - destruct (Hub_broadcast_wf J s2 Hwf2) as (s' & Hb & _).
    exists s'. split.
    { unfold connect, handleWebSocket. rewrite Hid.
      change (Hub_broadcast J s2 ≫= (λ s3, Some s3) = Some s'). by rewrite Hb. }
    split; [done|].
    destruct (range_member _ _ _ _ _ _ _ Hwf2 (keys_range_order s2) Hb Hc2 Hh2)
      as (_ & Hsent & _).
    destruct Hsent as [Hh' Hc']; [done|simpl; lia|]. done.
Qed.

Lemma join_reaches_members_with_room_witness :
  ∃ s',
    connect ex_query true 4%positive 9%Z ex_hub = Some s' ∧
    clients s' !! 4%positive = Some true ∧
    heap s' !! 4%positive =
      Some (mkClient "Carol" "general" (Chan.mk [ex_join] 256 false)) ∧
    clients s' !! 2%positive = None ∧
    (Chan.buf ∘ send) <$> heap s' !! 1%positive = Some [ex_join].
Proof.
  destruct (join_reaches_members_with_room ex_query 4%positive 9%Z ex_hub
              "Carol" "general")
    as (s1 & s2 & _ & Hs1 & Hreg & Hany & s' & Hconn & Hstep & Hc & Hh).
  - apply wfb_wf. vm_compute. reflexivity.
  - vm_compute. reflexivity.
  - vm_compute. reflexivity.
  - exists s'. split; [exact Hconn|]. split; [exact Hc|]. split; [exact Hh|].
    destruct (Hany [] s2 (run_nil s2)) as (s'' & Hstep' & Hmem & _).
    assert (s'' = s') as -> by congruence.
    assert (heap s2 !! 1%positive = Some alice ∧
            heap s2 !! 2%positive =
              Some (mkClient "Bob" "general" (Chan.mk (replicate 256 hello) 256 false)) ∧
            clients s2 !! 1%positive = Some true ∧
            clients s2 !! 2%positive = Some true) as (Ha & Hbob & Hca & Hcb).
    { revert Hreg. rewrite Hs1. simpl. intros [= <-].
      repeat split; vm_compute; reflexivity. }
    split.
    + destruct (Hmem 2%positive _ (ex_intro _ _ Hcb) Hbob eq_refl) as [_ Hfull].
      destruct Hfull as [Hgone _]; [vm_compute; lia|done].
    + destruct (Hmem 1%positive _ (ex_intro _ _ Hca) Ha eq_refl) as [Hroom _].
      destruct Hroom as [_ (cl' & Hh1 & Hbuf & _)]; [simpl; lia|].
      rewrite Hh1. simpl. by rewrite Hbuf.
Defined.
